(** * llm-playground: the chunking, fan-out and aggregation pipeline

    A shallow embedding of [qna_pair_generate.py] and [summary.py] and the
    properties of their segmenter, Q/A parser, de-duplicating aggregator
    and orchestration.

    Conventions of the embedding:
    - a Python [str] is a [string]; each [ascii] is read as the code point
      of the same number, so the model covers texts over U+0000..U+00FF
      (that range is closed under [str.lower] and [str.strip]);
    - a Python [int] is a [Z];
    - a [while] loop is a fuelled iteration of its body over the loop state,
      [None] meaning that the fuel ran out before the condition failed;
    - the generation service is an oracle handed to the functions that call
      it, and the order in which [as_completed] yields the futures is a
      schedule (a list of chunk indices) handed to the fan-out loops. *)

From Stdlib Require Import ZArith Ascii String Lia.
From stdpp Require Import gmap strings list pretty.

Local Open Scope Z_scope.

(** ** Python string primitives *)

Module PyStr.

(** [str.isspace] on one code point below 256: TAB..CR, FS..US, SPACE,
    NEL (U+0085) and NBSP (U+00A0). *)
Definition isspace (c : ascii) : bool :=
  let n := N_of_ascii c in
  (((9 <=? n) && (n <=? 13)) || ((28 <=? n) && (n <=? 32))
   || (n =? 133) || (n =? 160))%N.

Definition flush (cur : string) : list string :=
  match cur with
  | EmptyString => []
  | _ => [cur]
  end.

(** [text.split()] with no separator: maximal runs of non-space characters.
    [cur] is the token being read. *)
Fixpoint split_from (cur s : string) : list string :=
  match s with
  | EmptyString => flush cur
  | String c s' =>
      if isspace c then flush cur ++ split_from "" s'
      else split_from (cur +:+ String c "") s'
  end.

Definition split (s : string) : list string := split_from "" s.

(** [sep.join(l)] *)
Fixpoint join (sep : string) (l : list string) : string :=
  match l with
  | [] => ""
  | w :: rest =>
      match rest with
      | [] => w
      | _ => w +:+ sep +:+ join sep rest
      end
  end.

Fixpoint lstrip (s : string) : string :=
  match s with
  | EmptyString => ""
  | String c s' => if isspace c then lstrip s' else s
  end.

Fixpoint rstrip (s : string) : string :=
  match s with
  | EmptyString => ""
  | String c s' =>
      match rstrip s' with
      | EmptyString => if isspace c then "" else String c ""
      | r => String c r
      end
  end.

(** [s.strip()] *)
Definition strip (s : string) : string := rstrip (lstrip s).

(** [str.lower] on one code point below 256: A..Z and the accented
    capitals U+00C0..U+00DE (except the multiplication sign U+00D7) move up
    by 32. *)
Definition lower_char (c : ascii) : ascii :=
  let n := N_of_ascii c in
  if (((65 <=? n) && (n <=? 90))
      || ((192 <=? n) && (n <=? 222) && negb (n =? 215)))%N
  then ascii_of_N (n + 32) else c.

Fixpoint lower (s : string) : string :=
  match s with
  | EmptyString => ""
  | String c s' => String (lower_char c) (lower s')
  end.

(** [s.startswith(p)] *)
Fixpoint startswith (s p : string) : bool :=
  match p with
  | EmptyString => true
  | String a p' =>
      match s with
      | EmptyString => false
      | String b s' => Ascii.eqb a b && startswith s' p'
      end
  end.

(** [s[n:]] for [n >= 0] *)
Fixpoint str_drop (n : nat) (s : string) : string :=
  match n, s with
  | O, _ => s
  | S n', String _ s' => str_drop n' s'
  | S _, EmptyString => ""
  end.

Definition newline : ascii := ascii_of_nat 10.

(** [s.split(sep)] for a one-character separator: never empty. *)
Fixpoint split_on (sep : ascii) (s : string) : list string :=
  match s with
  | EmptyString => [""]
  | String c s' =>
      if Ascii.eqb c sep then "" :: split_on sep s'
      else match split_on sep s' with
           | h :: t => String c h :: t
           | [] => [String c ""]
           end
  end.

(** A token has at least one character and no space character. *)
Fixpoint nospace (s : string) : bool :=
  match s with
  | EmptyString => true
  | String c s' => negb (isspace c) && nospace s'
  end.

Definition is_token (s : string) : Prop := s <> "" /\ nospace s = true.

End PyStr.

(** ** The segmenter: [chunk_text_with_overlap] *)

Module Segmenter.
Import PyStr.

(** Python's index clamping for a slice bound on a sequence of length [n]:
    a negative bound counts from the end, and the result is clipped to
    [0 .. n]. *)
Definition clamp (n i : Z) : Z :=
  if i <? 0 then Z.max (i + n) 0 else Z.min i n.

(** [l[start:stop]] *)
Definition py_slice {A} (l : list A) (start stop : Z) : list A :=
  let n := Z.of_nat (length l) in
  let s := clamp n start in
  let e := clamp n stop in
  take (Z.to_nat (e - s)) (drop (Z.to_nat s) l).

(** The state of the [while] loop: the window start and the chunks
    appended so far. *)
Record loop_state := LoopState { start : Z; chunks : list string }.

Section Loop.
Variable words : list string.
Variables chunk_size overlap : Z.

Definition len_words : Z := Z.of_nat (length words).

(** [start < len(words)] *)
Definition loop_cond (st : loop_state) : bool := start st <? len_words.

(** One pass through the loop body. *)
Definition loop_body (st : loop_state) : loop_state :=
  let end_ := Z.min (start st + chunk_size) len_words in
  {| start := start st + (chunk_size - overlap);
     chunks := chunks st ++ [join " " (py_slice words (start st) end_)] |}.

Fixpoint while (fuel : nat) (st : loop_state) : option loop_state :=
  match fuel with
  | O => None
  | S fuel' =>
      if loop_cond st then while fuel' (loop_body st) else Some st
  end.

(** The state after [k] passes through the body. *)
Definition iterate (k : nat) (st : loop_state) : loop_state :=
  Nat.iter k loop_body st.

(** The chunk appended by a pass that begins with the window at [x]. *)
Definition window (x : Z) : string :=
  join " " (py_slice words x (Z.min (x + chunk_size) len_words)).
End Loop.

Global Arguments iterate : simpl never.
Global Arguments window : simpl never.

(** [start = 0], [chunks = []] *)
Definition init : loop_state := {| start := 0; chunks := [] |}.

Definition chunk_text_with_overlap
    (fuel : nat) (text : string) (chunk_size overlap : Z)
  : option (list string) :=
  let words := split text in
  chunks <$> while words chunk_size overlap fuel init.

(** [chunk_size: int = 300, overlap: int = 50] *)
Definition default_chunk_size : Z := 300.
Definition default_overlap : Z := 50.

(** [ceil(a / b)] for [b > 0] *)
Definition ceil_div (a b : Z) : Z := - ((- a) / b).

(** The number of passes through the loop body over [T] words when the
    window advances by [step > 0]. *)
Definition passes (T step : Z) : nat := Z.to_nat (ceil_div T step).

(** The last [n] elements of a list. *)
Definition lastn {A} (n : nat) (l : list A) : list A :=
  drop (length l - n) l.

End Segmenter.

(** ** Exceptions, results and observable events *)

Module Py.

(** The exceptions ([Exception] subclasses) the modelled code can meet. *)
Inductive exn :=
  | IndexError          (* [response.choices[0]] on an empty list *)
  | AttributeError      (* [None.strip()] *)
  | FileNotFoundError   (* raised by [load_data] *)
  | ServiceError (msg : string).  (* anything the service call raises *)

(** A call either returns a value or raises. *)
Inductive result (A : Type) :=
  | Return (a : A)
  | Raise (e : exn).
Global Arguments Return {A} a.
Global Arguments Raise {A} e.

(** Python truthiness of a [str]. *)
Definition truthy (s : string) : bool :=
  match s with
  | EmptyString => false
  | String _ _ => true
  end.

End Py.

(** ** The QA-pair generator: [qna_pair_generate.py] *)

Module QA.
Import PyStr Segmenter Py.

(** [{"role": ..., "content": ...}] *)
Record message := Message { role : string; content : string }.

(** [{"messages": [...]}], one fine-tuning record. *)
Record qa := Qa { messages : list message }.

Global Instance message_eq_dec : EqDecision message.
Proof. solve_decision. Defined.
Global Instance qa_eq_dec : EqDecision qa.
Proof. solve_decision. Defined.

(** The part of a [chat.completions] response the code reads:
    [response.choices[i].message.content], which may be [None]. *)
Record completion := Completion { choices : list (option string) }.

(** What the program prints, and the other effects a run can be observed
    by.  Events of worker threads are listed with their chunk, in the order
    of the schedule. *)
Inductive event :=
  | SayLoading (path : string)
  | SaySkipping (path : string)
  | SaySubmitting (idx total : nat)
  | SayApiError (e : exn)
  | SayErrorProcessing (idx : nat) (e : exn)
  | SayNoText
  | SaySaved (n : nat) (path : string)
  | PoolOpened (max_workers : Z) (tasks : nat)
  | ClientCalled (prompt : string)
  | FileWritten (path : string) (records : list qa).

Definition nl : string := String newline "".

Definition OUTPUT_PATH : string := "data/qa_pairs.jsonl".

Definition SYSTEM_GENERATE : string :=
  "You are a precise assistant that only generates factual Q&A pairs from Saud's resume and GitHub repositories.".

Definition SYSTEM_ANSWER : string :=
  "You are a helpful assistant that answers questions about Saud's resume and GitHub projects.".

(** The f-string prompt of [generate_qa_from_chunk]. *)
Definition build_prompt (chunk : string) (num_pairs : Z) : string :=
  nl +:+ "You are preparing fine-tuning data for a chatbot that answers questions about Saud's CV and GitHub repositories." +:+ nl
  +:+ nl +:+ "Guidelines:" +:+ nl
  +:+ "- Generate " +:+ pretty num_pairs +:+ " question-answer pairs ONLY about Saud's skills, education, projects, or repositories." +:+ nl
  +:+ "- Each pair must be factual and strictly based on the provided text. Do not hallucinate." +:+ nl
  +:+ "- Keep questions natural (as a user would ask)." +:+ nl
  +:+ "- Keep answers concise but informative." +:+ nl
  +:+ "- If text does not provide enough info, skip instead of guessing." +:+ nl
  +:+ "- Format:" +:+ nl
  +:+ "Q: <question>" +:+ nl
  +:+ "A: <answer>" +:+ nl
  +:+ nl +:+ "Text:" +:+ nl
  +:+ chunk +:+ nl.

(** The record appended for a question and its answer. *)
Definition make_qa (current_q current_a : string) : qa :=
  {| messages :=
       [ {| role := "system"; content := SYSTEM_ANSWER |};
         {| role := "user"; content := current_q |};
         {| role := "assistant"; content := current_a |} ] |}.

(** The state of the line loop: [current_q] and [qa_list]
    ([current_a] is dead outside the branch that sets it). *)
Record parser_state :=
  ParserState { current_q : option string; qa_list : list qa }.

Definition parser_init : parser_state :=
  {| current_q := None; qa_list := [] |}.

(** Truthiness of [current_q]: neither [None] nor the empty string. *)
Definition pending (q : option string) : option string :=
  match q with
  | Some s => if truthy s then Some s else None
  | None => None
  end.

(** One pass of [for line in lines]. *)
Definition parse_line (st : parser_state) (line : string) : parser_state :=
  if startswith line "Q:" then
    {| current_q := Some (strip (str_drop 2 line)); qa_list := qa_list st |}
  else if startswith line "A:" then
    match pending (current_q st) with
    | Some q =>
        let current_a := strip (str_drop 2 line) in
        {| current_q := None;
           qa_list := qa_list st ++ [make_qa q current_a] |}
    | None => st
    end
  else st.

Definition parse_lines (st : parser_state) (lines : list string)
  : parser_state :=
  fold_left parse_line lines st.

(** The parsing part of [generate_qa_from_chunk], from [content] on. *)
Definition parse_qa (content : string) : list qa :=
  qa_list (parse_lines parser_init (split_on newline content)).

(** [r] is made of a [Q:] line and a later [A:] line of [lines], with only
    lines of neither kind between the two. *)
Definition paired (lines : list string) (r : qa) : Prop :=
  exists (i j : nat) (lq la : string),
    (i < j)%nat
    /\ lines !! i = Some lq /\ lines !! j = Some la
    /\ startswith lq "Q:" = true /\ startswith la "A:" = true
    /\ r = make_qa (strip (str_drop 2 lq)) (strip (str_drop 2 la))
    /\ strip (str_drop 2 lq) <> ""
    /\ forall (k : nat) (lk : string),
         (i < k < j)%nat -> lines !! k = Some lk ->
         startswith lk "Q:" = false /\ startswith lk "A:" = false.

(** The text has no newline character. *)
Fixpoint single_line (s : string) : bool :=
  match s with
  | EmptyString => true
  | String c s' => negb (Ascii.eqb c newline) && single_line s'
  end.

(** An answer in the format the prompt of [generate_qa_from_chunk] asks
    for: for each pair a line [Q: <question>] followed by a line
    [A: <answer>]. *)
Definition format_lines (pairs : list (string * string)) : list string :=
  concat (map (fun p => ["Q: " +:+ p.1; "A: " +:+ p.2]) pairs).

Definition format_pairs (pairs : list (string * string)) : string :=
  join nl (format_lines pairs).

(** 1 when a non-empty question is pending, else 0. *)
Definition pending_count (st : parser_state) : nat :=
  match pending (current_q st) with
  | Some _ => 1
  | None => 0
  end.

(** What the loop maintains: every record so far is paired, and a
    pending question comes from a [Q:] line followed by stray lines only. *)
Definition parser_inv (lines : list string) (st : parser_state) : Prop :=
  (forall r, r ∈ qa_list st -> paired lines r)
  /\ forall q, pending (current_q st) = Some q ->
       exists (i : nat) (lq : string),
         lines !! i = Some lq /\ startswith lq "Q:" = true
         /\ q = strip (str_drop 2 lq) /\ q <> ""
         /\ forall (k : nat) (lk : string),
              (i < k)%nat -> lines !! k = Some lk ->
              startswith lk "Q:" = false /\ startswith lk "A:" = false.

(** [generate_qa_from_chunk(chunk)], with [num_pairs] at its default 3;
    [call] is the service's answer to this call's prompt. *)
Definition generate_qa_from_chunk
    (call : string -> result completion) (chunk : string)
  : list event * result (list qa) :=
  let prompt := build_prompt chunk 3 in
  match call prompt with
  | Raise e => ([ClientCalled prompt; SayApiError e], Return [])
  | Return response =>
      match choices response with
      | [] => ([ClientCalled prompt], Raise IndexError)
      | None :: _ => ([ClientCalled prompt], Raise AttributeError)
      | Some content :: _ =>
          ([ClientCalled prompt], Return (parse_qa (strip content)))
      end
  end.

(** [next((m["content"] for m in qa["messages"] if m["role"] == "user"), "")
    .strip().lower()] *)
Definition user_msg (r : qa) : string :=
  lower (strip (match List.find (fun m => String.eqb (role m) "user")
                                (messages r) with
                | Some m => content m
                | None => ""
                end)).

(** The aggregation state: [all_qa] and [seen_questions]. *)
Record agg_state :=
  AggState { all_qa : list qa; seen_questions : gset string }.

Definition agg_init : agg_state :=
  {| all_qa := []; seen_questions := ∅ |}.

(** One pass of [for qa in qa_pairs]. *)
Definition add_qa (st : agg_state) (r : qa) : agg_state :=
  let u := user_msg r in
  if truthy u && negb (bool_decide (u ∈ seen_questions st)) then
    {| all_qa := all_qa st ++ [r];
       seen_questions := seen_questions st ∪ {[u]} |}
  else st.

(** One pass of [for future in as_completed(futures)]: the [try] body on
    the worker's result, or the [except] branch. *)
Definition collect (client : nat -> string -> result completion)
    (chunks : list string) (acc : list event * agg_state) (idx : nat)
  : list event * agg_state :=
  let '(evs, st) := acc in
  match chunks !! idx with
  | None => acc  (* no future has this index *)
  | Some chunk =>
      let '(wevs, r) := generate_qa_from_chunk (client idx) chunk in
      let evs' := evs ++ SaySubmitting idx (length chunks) :: wevs in
      match r with
      | Return qa_pairs => (evs', fold_left add_qa qa_pairs st)
      | Raise e => (evs' ++ [SayErrorProcessing idx e], st)
      end
  end.

(** [process_chunks_parallel(chunks, max_workers)].  [client idx] answers
    the call made for chunk [idx]; [sched] is the order in which
    [as_completed] yields the futures, a permutation of the chunk indices. *)
Definition process_chunks_parallel
    (client : nat -> string -> result completion) (sched : list nat)
    (chunks : list string) (max_workers : Z)
  : list event * list qa :=
  let '(evs, st) :=
    fold_left (collect client chunks) sched
      ([PoolOpened max_workers (length chunks)], agg_init) in
  (evs, all_qa st).

(** The records a worker hands to the aggregation loop for chunk [idx]:
    the list [generate_qa_from_chunk] returns, nothing when it raises. *)
Definition payload (client : nat -> string -> result completion)
    (chunks : list string) (idx : nat) : list qa :=
  match chunks !! idx with
  | None => []
  | Some chunk =>
      match (generate_qa_from_chunk (client idx) chunk).2 with
      | Return qa_pairs => qa_pairs
      | Raise _ => []
      end
  end.

(** The events of one pass of the loop over the futures. *)
Definition chunk_events (client : nat -> string -> result completion)
    (chunks : list string) (idx : nat) : list event :=
  match chunks !! idx with
  | None => []
  | Some chunk =>
      let '(wevs, r) := generate_qa_from_chunk (client idx) chunk in
      SaySubmitting idx (length chunks) :: wevs
        ++ match r with
           | Return _ => []
           | Raise e => [SayErrorProcessing idx e]
           end
  end.

(** The prompts sent to the service, read off the events of a run. *)
Definition calls_of (evs : list event) : list string :=
  omap (fun e => match e with ClientCalled prompt => Some prompt | _ => None end)
       evs.

(** The files written, read off the events of a run. *)
Definition writes_of (evs : list event) : list (string * list qa) :=
  omap (fun e => match e with
                 | FileWritten path records => Some (path, records)
                 | _ => None
                 end) evs.

(** The records [add_qa] appends when it is run over a list of records
    from the set [seen]. *)
Fixpoint kept (seen : gset string) (l : list qa) : list qa :=
  match l with
  | [] => []
  | r :: l' =>
      let u := user_msg r in
      if truthy u && negb (bool_decide (u ∈ seen))
      then r :: kept (seen ∪ {[u]}) l'
      else kept seen l'
  end.

(** [save_qa_to_jsonl(qa_list, file_path)]: the file is opened for writing
    and receives one line per record. *)
Definition save_qa_to_jsonl (qa_list : list qa) (file_path : string)
  : list event :=
  [FileWritten file_path qa_list; SaySaved (length qa_list) file_path].

(** A file as [load_text_from_file] sees it: [file_path.suffix], and what
    the reader chosen by the suffix returns: [f.read()] for a text file,
    [page.extract_text()] of each page (possibly [None]) for a PDF, the
    text of each paragraph for a DOCX. *)
Record file := File {
  suffix : string;
  read_text : string;
  pdf_pages : list (option string);
  docx_paragraphs : list string
}.

(** [load_text_from_file(file_path)]; the flag tells whether the file was
    reported as skipped. *)
Definition load_text_from_file (f : file) : bool * string :=
  let ext := lower (suffix f) in
  let '(skipped, text) :=
    if String.eqb ext ".txt" then (false, read_text f)
    else if String.eqb ext ".pdf" then
      (false,
       join " " (map (fun page => match page with
                                  | Some t => if truthy t then t else ""
                                  | None => ""
                                  end) (pdf_pages f)))
    else if String.eqb ext ".docx" then (false, join " " (docx_paragraphs f))
    else (true, "") in
  (skipped, strip text).

(** The regular files of the data folder, each with its path, as the
    loading loop of [main] hands them to [load_all]. *)
Definition load_folder (folder : list (string * file))
  : list (string * string) :=
  map (fun pf => (pf.1, (load_text_from_file pf.2).2)) folder.

(** One pass of the loading loop of [main] over a regular file of the data
    folder, given as its path and the text [load_text_from_file] returns
    for it. *)
Definition load_step (acc : list event * string) (file : string * string)
  : list event * string :=
  let '(evs, all_text) := acc in
  let '(path, file_text) := file in
  (evs ++ [SayLoading path],
   if truthy file_text then all_text +:+ file_text +:+ nl else all_text).

Definition load_all (files : list (string * string)) : list event * string :=
  fold_left load_step files ([], "").

(** The accumulated text never ends inside a token. *)
Definition closed_text (acc : string) : Prop :=
  forall x, split (acc +:+ x) = split acc ++ split x.

(** [main()].  The result is [None] only if the segmenter does not return
    within the fuel given to it, one more than the number of words. *)
Definition main (files : list (string * string))
    (client : nat -> string -> result completion) (sched : list nat)
  : option (list event) :=
  let '(evs, all_text) := load_all files in
  if negb (truthy (strip all_text)) then Some (evs ++ [SayNoText])
  else
    match chunk_text_with_overlap (S (length (split all_text))) all_text
            300 50 with
    | None => None
    | Some chunks =>
        let '(pevs, all_qa) := process_chunks_parallel client sched chunks 5 in
        Some (evs ++ pevs ++ save_qa_to_jsonl all_qa OUTPUT_PATH)
    end.

(** One pass of the loading loop of [main] over a regular file of the data
    folder, with the call to [load_text_from_file] and the line it prints
    for a type it does not support. *)
Definition load_file_step (acc : list event * string) (pf : string * file)
  : list event * string :=
  let '(evs, all_text) := acc in
  let '(skipped, file_text) := load_text_from_file pf.2 in
  (evs ++ SayLoading pf.1 :: (if skipped then [SaySkipping pf.1] else []),
   if truthy file_text then all_text +:+ file_text +:+ nl else all_text).

(** What the loading loop prints for a folder. *)
Definition loading_events (folder : list (string * file)) : list event :=
  concat (map (fun pf =>
                 SayLoading pf.1
                   :: (if (load_text_from_file pf.2).1 then [SaySkipping pf.1]
                       else [])) folder).

(** [main()] from the regular files of the data folder, each given by its
    path and by what its reader returns. *)
Definition main_folder (folder : list (string * file))
    (client : nat -> string -> result completion) (sched : list nat)
  : option (list event) :=
  let '(evs, all_text) := fold_left load_file_step folder ([], "") in
  if negb (truthy (strip all_text)) then Some (evs ++ [SayNoText])
  else
    match chunk_text_with_overlap (S (length (split all_text))) all_text
            300 50 with
    | None => None
    | Some chunks =>
        let '(pevs, all_qa) := process_chunks_parallel client sched chunks 5 in
        Some (evs ++ pevs ++ save_qa_to_jsonl all_qa OUTPUT_PATH)
    end.

End QA.

(** ** The summariser: [summary.py] *)

Module Summary.
Import PyStr Py.

Inductive event :=
  | SayLoaded (path : string)
  | SaySplit (n : nat)
  | SaySummarizing (idx : nat)
  | SayFinished (idx : nat)
  | SayErrorSummarizing (idx : nat) (e : exn)
  | SayMerging
  | SayFinalCreated
  | SaySummarySaved (path : string)
  | PoolOpened (max_workers : Z) (tasks : nat)
  | LlmInvoked (system user : string)
  | FileWritten (path : string) (text : string).

Definition INPUT_FILE : string := "data/github_data.txt".
Definition OUTPUT_FILE : string := "data/summarize.txt".
Definition MAX_WORKERS : Z := 5.

Definition SYSTEM_NOTES : string :=
  "Extract structured notes. Keep all important details.".

Definition SYSTEM_MERGE : string :=
  "Merge the following summaries into one concise, structured summary without repetition. Use sections: Profile, Skills, Projects, Education, Soft Skills.".

(** [load_data(file_path)]: [file] is the content of the input file,
    [None] when it does not exist. *)
Definition load_data (file : option string) : list event * result string :=
  match file with
  | None => ([], Raise FileNotFoundError)
  | Some text => ([SayLoaded INPUT_FILE], Return text)
  end.

(** [split_text(text, chunk_size, chunk_overlap)]: [splitter] stands for
    [RecursiveCharacterTextSplitter(...).split_documents], a library
    function; a document is its [page_content]. *)
Definition split_text (splitter : Z -> Z -> string -> list string)
    (text : string) (chunk_size chunk_overlap : Z)
  : list event * list string :=
  let docs := splitter chunk_size chunk_overlap text in
  ([SaySplit (length docs)], docs).

(** [summarize_chunk(llm, doc, idx)] *)
Definition summarize_chunk (invoke : string -> string -> result string)
    (doc : string) (idx : nat) : list event * result string :=
  match invoke SYSTEM_NOTES doc with
  | Raise e => ([SaySummarizing idx; LlmInvoked SYSTEM_NOTES doc], Raise e)
  | Return resp =>
      ([SaySummarizing idx; LlmInvoked SYSTEM_NOTES doc; SayFinished idx],
       Return resp)
  end.

(** One pass of [for future in as_completed(futures)]. *)
Definition collect (llm : nat -> string -> string -> result string)
    (docs : list string) (acc : list event * list string) (idx : nat)
  : list event * list string :=
  let '(evs, results) := acc in
  match docs !! idx with
  | None => acc  (* no future has this index *)
  | Some doc =>
      let '(wevs, r) := summarize_chunk (llm idx) doc idx in
      match r with
      | Return s => (evs ++ wevs, results ++ [s])
      | Raise e => (evs ++ wevs ++ [SayErrorSummarizing idx e], results)
      end
  end.

(** [summarize_chunks_parallel(docs)].  [llm idx] answers the call made
    for document [idx]; [sched] is the order in which [as_completed] yields
    the futures. *)
Definition summarize_chunks_parallel
    (llm : nat -> string -> string -> result string) (sched : list nat)
    (docs : list string) : list event * list string :=
  fold_left (collect llm docs) sched
    ([PoolOpened MAX_WORKERS (length docs)], []).

(** The partial summary a worker hands over for document [idx], if its
    call returned. *)
Definition partial (llm : nat -> string -> string -> result string)
    (docs : list string) (idx : nat) : option string :=
  match docs !! idx with
  | None => None
  | Some doc =>
      match (summarize_chunk (llm idx) doc idx).2 with
      | Return s => Some s
      | Raise _ => None
      end
  end.

(** The events of one pass of the loop over the futures. *)
Definition doc_events (llm : nat -> string -> string -> result string)
    (docs : list string) (idx : nat) : list event :=
  match docs !! idx with
  | None => []
  | Some doc =>
      let '(wevs, r) := summarize_chunk (llm idx) doc idx in
      wevs ++ match r with
              | Return _ => []
              | Raise e => [SayErrorSummarizing idx e]
              end
  end.

(** The calls made to the model, the failures reported and the files
    written, read off the events of a run. *)
Definition invocations_of (evs : list event) : list (string * string) :=
  omap (fun e => match e with
                 | LlmInvoked system user => Some (system, user)
                 | _ => None
                 end) evs.

Definition errors_of (evs : list event) : list (nat * exn) :=
  omap (fun e => match e with
                 | SayErrorSummarizing idx e => Some (idx, e)
                 | _ => None
                 end) evs.

Definition writes_of (evs : list event) : list (string * string) :=
  omap (fun e => match e with
                 | FileWritten path text => Some (path, text)
                 | _ => None
                 end) evs.

(** [merge_partial_summaries(partials)] *)
Definition merge_partial_summaries
    (invoke : string -> string -> result string) (partials : list string)
  : list event * result string :=
  let user := join (String newline (String newline "")) partials in
  match invoke SYSTEM_MERGE user with
  | Raise e => ([SayMerging; LlmInvoked SYSTEM_MERGE user], Raise e)
  | Return final =>
      ([SayMerging; LlmInvoked SYSTEM_MERGE user; SayFinalCreated],
       Return final)
  end.

(** [save_summary(summary, output_file)] *)
Definition save_summary (summary : string) (output_file : string)
  : list event :=
  [FileWritten output_file summary; SaySummarySaved output_file].

(** [run_pipeline()].  [merge_llm] answers the final reduction call. *)
Definition run_pipeline (file : option string)
    (splitter : Z -> Z -> string -> list string)
    (llm : nat -> string -> string -> result string)
    (merge_llm : string -> string -> result string)
    (sched : list nat) : list event * result unit :=
  match load_data file with
  | (evs0, Raise e) => (evs0, Raise e)
  | (evs0, Return text) =>
      let '(evs1, chunks) := split_text splitter text 1200 0 in
      let '(evs2, partial_summaries) :=
        summarize_chunks_parallel llm sched chunks in
      match merge_partial_summaries merge_llm partial_summaries with
      | (evs3, Raise e) => (evs0 ++ evs1 ++ evs2 ++ evs3, Raise e)
      | (evs3, Return final_summary) =>
          (evs0 ++ evs1 ++ evs2 ++ evs3
             ++ save_summary final_summary OUTPUT_FILE,
           Return tt)
      end
  end.

End Summary.

Import PyStr Segmenter Py.

(** ** Facts about the string primitives *)

Section StringFacts.

Lemma app_cons (c : ascii) (s t : string) :
  String c s +:+ t = String c (s +:+ t).
Proof. reflexivity. Qed.

Lemma app_empty_l (s : string) : "" +:+ s = s.
Proof. reflexivity. Qed.

Lemma app_empty_r (s : string) : s +:+ "" = s.
Proof. induction s as [|c s IH]; [done|]. by rewrite app_cons, IH. Qed.

Lemma app_assoc_str (s t u : string) : (s +:+ t) +:+ u = s +:+ (t +:+ u).
Proof. induction s as [|c s IH]; [done|]. by rewrite !app_cons, IH. Qed.

Lemma app_eq_empty (s t : string) : s +:+ t = "" -> s = "" /\ t = "".
Proof. destruct s; [done|]. rewrite app_cons. discriminate. Qed.

Lemma nospace_app (s t : string) :
  nospace (s +:+ t) = nospace s && nospace t.
Proof.
  induction s as [|c s IH]; [done|].
  rewrite app_cons. simpl. rewrite IH. by destruct (isspace c).
Qed.

Lemma flush_nonempty (s : string) : s <> "" -> flush s = [s].
Proof. by destruct s. Qed.

(** Reading a space-free word only extends the current token. *)
Lemma split_from_word (w cur s : string) :
  nospace w = true -> split_from cur (w +:+ s) = split_from (cur +:+ w) s.
Proof.
  revert cur. induction w as [|c w IH]; intros cur Hw.
  - by rewrite app_empty_r.
  - simpl in Hw. apply andb_true_iff in Hw as [Hc Hw].
    rewrite app_cons. simpl. apply negb_true_iff in Hc. rewrite Hc.
    rewrite IH by done. by rewrite app_assoc_str.
Qed.

Lemma split_from_last (w cur : string) :
  nospace w = true -> split_from cur w = flush (cur +:+ w).
Proof.
  intros Hw. rewrite <- (app_empty_r w) at 1. by rewrite split_from_word.
Qed.

Lemma split_from_tokens (cur s : string) :
  nospace cur = true -> Forall is_token (split_from cur s).
Proof.
  revert cur. induction s as [|c s IH]; intros cur Hcur; simpl.
  - destruct cur; [constructor|]. by repeat constructor.
  - destruct (isspace c) eqn:Hc.
    + apply Forall_app. split; [|by apply IH].
      destruct cur; [constructor|]. by repeat constructor.
    + apply IH. rewrite nospace_app, Hcur. simpl. by rewrite Hc.
Qed.

(** Every element of [text.split()] is a token. *)
Lemma split_tokens (s : string) : Forall is_token (split s).
Proof. by apply split_from_tokens. Qed.

Lemma join_cons (sep w w' : string) (ws : list string) :
  join sep (w :: w' :: ws) = w +:+ sep +:+ join sep (w' :: ws).
Proof. reflexivity. Qed.

(** [" ".join(ws).split() == ws] for a list of tokens. *)
Lemma split_join (ws : list string) :
  Forall is_token ws -> split (join " " ws) = ws.
Proof.
  unfold split. induction 1 as [|w ws [Hne Hw] Hws IH]; [done|].
  destruct ws as [|w' ws].
  - simpl. rewrite split_from_last by done. by apply flush_nonempty.
  - rewrite join_cons, split_from_word by done.
    rewrite app_cons. cbn [split_from].
    change (isspace " ") with true. cbv iota.
    rewrite !app_empty_l, IH. by rewrite flush_nonempty.
Qed.

End StringFacts.

(** ** Facts about the segmenter loop *)

Section LoopFacts.
Variable words : list string.
Variables C O : Z.

Local Abbreviation T := (len_words words).
Local Abbreviation body := (loop_body words C O).
Local Abbreviation cond := (loop_cond words).
Local Abbreviation iter := (iterate words C O).
Local Abbreviation win := (window words C).

Lemma iterate_0 (st : loop_state) : iter 0 st = st.
Proof. reflexivity. Qed.

Lemma iterate_S (k : nat) (st : loop_state) :
  iter (S k) st = body (iter k st).
Proof. reflexivity. Qed.

Lemma iterate_shift (k : nat) (st : loop_state) :
  iter (S k) st = iter k (body st).
Proof. unfold iterate. by rewrite Nat.iter_succ_r. Qed.

(** The window start advances by [chunk_size - overlap] on every pass. *)
Lemma iterate_start (k : nat) (st : loop_state) :
  start (iter k st) = start st + Z.of_nat k * (C - O).
Proof.
  induction k as [|k IH]; [rewrite iterate_0; lia|].
  rewrite iterate_S. unfold loop_body at 1. simpl start. rewrite IH. lia.
Qed.

(** Pass number [i] appends the window at [start + i * (chunk_size - overlap)]. *)
Lemma iterate_chunks (k : nat) (st : loop_state) :
  chunks (iter k st)
  = chunks st
    ++ map (fun i => win (start st + Z.of_nat i * (C - O))) (seq 0 k).
Proof.
  induction k as [|k IH]; [rewrite iterate_0; simpl; by rewrite app_nil_r|].
  rewrite iterate_S. unfold loop_body at 1. simpl chunks.
  rewrite IH, seq_S, map_app, iterate_start. simpl.
  by rewrite <- app_assoc.
Qed.

(** The loop returns the state of the first pass count at which the
    condition fails, provided the fuel covers it. *)
Lemma while_stops (k fuel : nat) (st : loop_state) :
  (k < fuel)%nat ->
  (forall i, (i < k)%nat -> cond (iter i st) = true) ->
  cond (iter k st) = false ->
  while words C O fuel st = Some (iter k st).
Proof.
  revert fuel st. induction k as [|k IH]; intros fuel st Hf Hlt Hk.
  - destruct fuel; [lia|]. rewrite iterate_0 in *. simpl. by rewrite Hk.
  - destruct fuel; [lia|]. simpl.
    assert (cond st = true) as -> by (apply (Hlt 0%nat); lia).
    rewrite iterate_shift.
    apply IH; [lia| |by rewrite <- iterate_shift].
    intros i Hi. rewrite <- iterate_shift. apply Hlt. lia.
Qed.

(** A condition that never fails exhausts any fuel. *)
Lemma while_runs_out (fuel : nat) (st : loop_state) :
  (forall i, (i < fuel)%nat -> cond (iter i st) = true) ->
  while words C O fuel st = None.
Proof.
  revert st. induction fuel as [|fuel IH]; intros st H; [done|].
  simpl. assert (cond st = true) as -> by (apply (H 0%nat); lia). apply IH.
  intros i Hi. rewrite <- iterate_shift. apply H. lia.
Qed.

(** Conversely a returned state is the state after some number of passes,
    the first at which the condition fails. *)
Lemma while_returns (fuel : nat) (st st' : loop_state) :
  while words C O fuel st = Some st' ->
  exists k, (k < fuel)%nat /\ st' = iter k st
            /\ cond (iter k st) = false
            /\ forall i, (i < k)%nat -> cond (iter i st) = true.
Proof.
  revert st. induction fuel as [|fuel IH]; intros st H; [done|].
  simpl in H. destruct (cond st) eqn:Hc.
  - apply IH in H as (k & Hk & -> & Hstop & Hrun).
    exists (S k). rewrite iterate_shift. repeat split; [lia|done|].
    intros [|i] Hi; [done|]. rewrite iterate_shift. apply Hrun. lia.
  - inversion H; subst. exists 0%nat. repeat split; [lia|done|]. lia.
Qed.

End LoopFacts.

(** ** Slices and the number of passes *)

Lemma ceil_div_bounds (a b : Z) :
  0 < b -> (ceil_div a b - 1) * b < a <= ceil_div a b * b.
Proof.
  intros Hb. unfold ceil_div.
  pose proof (Z.div_mod (- a) b ltac:(lia)) as Hdm.
  pose proof (Z.mod_pos_bound (- a) b Hb) as Hm.
  nia.
Qed.

Lemma ceil_div_nonneg (a b : Z) : 0 < b -> 0 <= a -> 0 <= ceil_div a b.
Proof. intros Hb Ha. pose proof (ceil_div_bounds a b Hb). nia. Qed.

Lemma ceil_div_le (a b : Z) : 0 < b -> 0 <= a -> ceil_div a b <= a.
Proof. intros Hb Ha. pose proof (ceil_div_bounds a b Hb). nia. Qed.

(** Any slice of a list of tokens is a list of tokens. *)
Lemma py_slice_tokens (l : list string) (a b : Z) :
  Forall is_token l -> Forall is_token (py_slice l a b).
Proof. intros H. unfold py_slice. by apply Forall_take, Forall_drop. Qed.

Lemma take_cap {A} (l : list A) (k1 k2 : nat) :
  (k1 `min` length l = k2 `min` length l)%nat -> take k1 l = take k2 l.
Proof.
  intros H. rewrite <- (take_ge l (length l)) by lia.
  by rewrite !take_take, H.
Qed.

(** With a non-negative start and width the window slice is [take], [drop]. *)
Lemma py_slice_window {A} (l : list A) (a c : Z) :
  0 <= a -> 0 <= c ->
  py_slice l a (Z.min (a + c) (Z.of_nat (length l)))
  = take (Z.to_nat c) (drop (Z.to_nat a) l).
Proof.
  intros Ha Hc. unfold py_slice, clamp.
  set (n := Z.of_nat (length l)).
  assert (n = Z.of_nat (length l)) as Hn by done. clearbody n.
  destruct (a <? 0) eqn:E1; [lia|]. clear E1.
  destruct (Z.min (a + c) n <? 0) eqn:E2; [lia|]. clear E2.
  destruct (Z.le_gt_cases a n) as [Hle|Hgt].
  - rewrite (Z.min_l a n) by lia.
    apply take_cap. rewrite length_drop. lia.
  - rewrite !drop_ge by lia. by rewrite !take_nil.
Qed.

(** ** The loop with an advancing window *)

Section Advancing.
Variable words : list string.
Variables C O : Z.
Hypothesis Hstep : 0 < C - O.

Local Abbreviation T := (len_words words).
Local Abbreviation iter := (iterate words C O).
Local Abbreviation n := (passes T (C - O)).

Lemma T_nonneg : 0 <= T.
Proof. unfold len_words. lia. Qed.

Lemma passes_le : (n <= length words)%nat.
Proof.
  pose proof (ceil_div_le T (C - O) Hstep T_nonneg).
  unfold passes, len_words in *. lia.
Qed.

Lemma cond_running (i : nat) :
  (i < n)%nat -> loop_cond words (iter i init) = true.
Proof.
  intros Hi. unfold loop_cond. rewrite iterate_start. simpl start.
  pose proof (ceil_div_bounds T (C - O) Hstep).
  pose proof (ceil_div_nonneg T (C - O) Hstep T_nonneg).
  unfold passes in Hi. apply Z.ltb_lt. nia.
Qed.

Lemma cond_stops (i : nat) :
  (n <= i)%nat -> loop_cond words (iter i init) = false.
Proof.
  intros Hi. unfold loop_cond. rewrite iterate_start. simpl start.
  pose proof (ceil_div_bounds T (C - O) Hstep).
  pose proof (ceil_div_nonneg T (C - O) Hstep T_nonneg).
  unfold passes in Hi. apply Z.ltb_ge. nia.
Qed.

(** With enough fuel the loop returns after exactly [n] passes. *)
Lemma while_advancing (fuel : nat) :
  (length words < fuel)%nat ->
  while words C O fuel init = Some (iter n init).
Proof.
  intros Hf. apply while_stops.
  - pose proof passes_le. lia.
  - apply cond_running.
  - by apply cond_stops.
Qed.

Lemma chunks_advancing :
  chunks (iter n init)
  = map (fun i => window words C (Z.of_nat i * (C - O))) (seq 0 n).
Proof. by rewrite iterate_chunks. Qed.

End Advancing.

(** The chunk list in closed form, for any parameters that advance the
    window. *)
Lemma chunk_text_closed_form (fuel : nat) (text : string) (C O : Z) :
  0 < C - O -> (length (split text) < fuel)%nat ->
  chunk_text_with_overlap fuel text C O
  = Some (map (fun i => window (split text) C (Z.of_nat i * (C - O)))
              (seq 0 (passes (len_words (split text)) (C - O)))).
Proof.
  intros Hs Hf. unfold chunk_text_with_overlap.
  rewrite while_advancing by done. simpl. by rewrite chunks_advancing.
Qed.

(** The tokens of a window, for a non-negative start and chunk size. *)
Lemma split_window (text : string) (C x : Z) :
  0 <= x -> 0 <= C ->
  split (window (split text) C x)
  = take (Z.to_nat C) (drop (Z.to_nat x) (split text)).
Proof.
  intros Hx HC. unfold window, len_words.
  rewrite py_slice_window by done.
  apply split_join, Forall_take, Forall_drop, split_tokens.
Qed.

(** Consecutive blocks of [s] elements make up the list. *)
Lemma concat_blocks {A} (l : list A) (s k : nat) :
  concat (map (fun i => take s (drop (i * s) l)) (seq 0 k)) = take (k * s) l.
Proof.
  induction k as [|k IH]; [done|].
  rewrite seq_S, map_app, concat_app, IH. simpl. rewrite app_nil_r.
  rewrite take_take_drop. f_equal. lia.
Qed.

(** Whatever the fuel, a returned chunk list is the closed form. *)
Lemma chunk_text_returns (fuel : nat) (text : string) (C O : Z)
    (cs : list string) :
  0 < C - O ->
  chunk_text_with_overlap fuel text C O = Some cs ->
  cs = map (fun i => window (split text) C (Z.of_nat i * (C - O)))
           (seq 0 (passes (len_words (split text)) (C - O))).
Proof.
  intros Hs H. unfold chunk_text_with_overlap in H.
  destruct (while _ _ _ _ _) as [st|] eqn:Hw; [|done].
  simpl in H. inversion H; subst cs. clear H.
  apply while_returns in Hw as (k & _ & -> & Hstop & Hrun).
  set (n := passes (len_words (split text)) (C - O)).
  assert (k = n) as ->.
  { destruct (Nat.lt_total k n) as [Hlt|[->|Hgt]]; [|done|].
    - rewrite cond_running in Hstop by done. done.
    - specialize (Hrun n Hgt). rewrite cond_stops in Hrun by done. done. }
  by apply chunks_advancing.
Qed.

(** The windows of the closed form, looked up by position. *)
Lemma closed_form_lookup (words : list string) (C s : Z) (k i : nat)
    (c : string) :
  map (fun i => window words C (Z.of_nat i * s)) (seq 0 k) !! i = Some c ->
  (i < k)%nat /\ c = window words C (Z.of_nat i * s).
Proof.
  intros H. rewrite list_lookup_fmap in H.
  destruct (seq 0 k !! i) as [j|] eqn:Hj; [|done].
  apply lookup_seq in Hj as [-> ?]. simpl in H. by inversion H.
Qed.

(** A chunk is always the single-space join of a slice of the tokens,
    for any parameters. *)
Lemma iterate_chunks_form (words : list string) (C O : Z) (k : nat)
    (c : string) :
  c ∈ chunks (iterate words C O k init) ->
  exists a b, c = join " " (py_slice words a b).
Proof.
  rewrite iterate_chunks. simpl. intros Hc.
  apply list_elem_of_fmap in Hc as (i & -> & _).
  unfold window. eauto.
Qed.

(** ** Properties of the segmenter *)

(** The number of tokens of the window at pass [i]. *)
Lemma window_tokens_length (text : string) (C s : Z) (i : nat) :
  0 <= C -> 0 <= s ->
  Z.of_nat (length (split (window (split text) C (Z.of_nat i * s))))
  = Z.max 0 (Z.min C (len_words (split text) - Z.of_nat i * s)).
Proof.
  intros HC Hs. rewrite split_window by nia.
  rewrite length_take, length_drop. unfold len_words. lia.
Qed.

(** C7. With [0 <= overlap < chunk_size] the loop of
    [chunk_text_with_overlap] terminates on every text: any fuel above the
    token count makes it return, after [n] passes.  The window start grows
    by exactly [chunk_size - overlap] (a positive amount) on each pass, is
    below the token count before each of the [n] passes and at or above it
    after the last.  Each chunk holds between one and [chunk_size] tokens,
    [min chunk_size (T - start)] of them, so the last chunks may be shorter
    than [chunk_size]. *)
Theorem chunk_text_terminates (text : string) (C O : Z) :
  0 <= O < C ->
  let words := split text in
  let T := len_words words in
  let st k := iterate words C O k init in
  exists n : nat,
    (forall fuel, (length words < fuel)%nat ->
       while words C O fuel init = Some (st n)
       /\ chunk_text_with_overlap fuel text C O = Some (chunks (st n)))
    /\ (forall k, start (st (S k)) = start (st k) + (C - O)
                  /\ start (st k) < start (st (S k)))
    /\ (forall k, (k < n)%nat -> start (st k) < T)
    /\ T <= start (st n)
    /\ length (chunks (st n)) = n
    /\ (forall i c, chunks (st n) !! i = Some c ->
          Z.of_nat (length (split c)) = Z.min C (T - start (st i))
          /\ 1 <= Z.of_nat (length (split c)) <= C).
Proof.
  intros HCO words T st. subst words T st. cbv beta.
  set (words := split text). set (T := len_words words).
  assert (0 < C - O) as Hs by lia.
  pose proof (cond_running words C O Hs) as Hrun.
  pose proof (cond_stops words C O Hs (passes T (C - O)) (le_n _)) as Hstop.
  unfold loop_cond in Hrun, Hstop. apply Z.ltb_ge in Hstop.
  exists (passes T (C - O)).
  split; [|split; [|split; [|split; [|split]]]].
  - intros fuel Hf. split; [by apply while_advancing|].
    unfold chunk_text_with_overlap. fold words.
    by rewrite while_advancing.
  - intros k. rewrite !iterate_start. lia.
  - intros k Hk. apply Z.ltb_lt. by apply Hrun.
  - exact Hstop.
  - rewrite chunks_advancing by done. by rewrite length_map, length_seq.
  - intros i c H. rewrite chunks_advancing in H by done.
    apply closed_form_lookup in H as [Hi ->].
    unfold words. rewrite !window_tokens_length by lia.
    apply Hrun, Z.ltb_lt in Hi. rewrite iterate_start in Hi |- *.
    simpl start in *. fold words T in Hi |- *. lia.
Qed.

Lemma chunk_text_terminates_witness :
  exists n : nat,
    chunk_text_with_overlap 5 "a b c d" 3 1
    = Some (chunks (iterate (split "a b c d") 3 1 n init))
    /\ length (chunks (iterate (split "a b c d") 3 1 n init)) = n.
Proof.
  destruct (chunk_text_terminates "a b c d" 3 1 ltac:(lia))
    as (n & Hret & _ & _ & _ & Hlen & _).
  exists n. split; [|exact Hlen].
  apply (Hret 5%nat). vm_compute. lia.
Defined.

(** The non-overlapping prefix of the window at pass [i] is the [i]-th
    block of [chunk_size - overlap] tokens. *)
Lemma window_prefix (text : string) (C O : Z) (i : nat) :
  0 <= O < C ->
  take (Z.to_nat (C - O))
       (split (window (split text) C (Z.of_nat i * (C - O))))
  = take (Z.to_nat (C - O)) (drop (i * Z.to_nat (C - O)) (split text)).
Proof.
  intros H. rewrite split_window by nia. rewrite take_take.
  rewrite Z2Nat.inj_mul, Nat2Z.id by lia.
  f_equal. lia.
Qed.

(** C1 (count formula as the claim states it).  On the three-token text
    "a b c" with [chunk_size = 3] and [overlap = 1] the claim's formula
    [ceil((T - O) / (C - O))] gives 1, and the code returns two chunks; on
    the empty text, where the claim says one chunk, it returns none. *)
Lemma chunk_count_counterexample :
  len_words (split "a b c") = 3
  /\ chunk_text_with_overlap 4 "a b c" 3 1 = Some ["a b c"; "c"]
  /\ Z.of_nat (length ["a b c"; "c"]) <> ceil_div (3 - 1) (3 - 1)
  /\ chunk_text_with_overlap 4 "" 3 1 = Some []
  /\ Z.of_nat (length (@nil string)) <> 1.
Proof. vm_compute. repeat split; congruence. Qed.

(** C1 (amended).  With [0 <= overlap < chunk_size] the function returns,
    for any fuel above the token count [T], a chunk list such that the
    first [chunk_size - overlap] tokens of the successive chunks
    concatenate to the token sequence of the text, and whose length is
    [ceil(T / (chunk_size - overlap))] (none for an empty text).  For
    [T = 1000], [chunk_size = 300], [overlap = 50] the chunks are the
    tokens at offsets [0,300), [250,550), [500,800), [750,1000): four
    chunks, the last of 250 tokens. *)
Theorem segmentation_coverage (text : string) (C O : Z) :
  0 <= O < C ->
  let words := split text in
  let T := len_words words in
  exists cs : list string,
    (forall fuel, (length words < fuel)%nat ->
       chunk_text_with_overlap fuel text C O = Some cs)
    /\ concat (map (fun c => take (Z.to_nat (C - O)) (split c)) cs) = words
    /\ Z.of_nat (length cs) = ceil_div T (C - O)
    /\ (T = 1000 -> C = 300 -> O = 50 ->
        map split cs
        = [py_slice words 0 300; py_slice words 250 550;
           py_slice words 500 800; py_slice words 750 1000]
        /\ length cs = 4%nat
        /\ length (py_slice words 750 1000) = 250%nat).
Proof.
  intros HCO words T. subst words T.
  set (words := split text). set (T := len_words words).
  assert (0 < C - O) as Hs by lia.
  pose proof (ceil_div_bounds T (C - O) Hs) as Hb.
  pose proof (ceil_div_nonneg T (C - O) Hs (T_nonneg words)) as Hn.
  eexists. split; [|split; [|split]].
  - intros fuel Hf. by apply chunk_text_closed_form.
  - rewrite map_map.
    erewrite map_ext; [|intros i; by apply window_prefix].
    fold words. rewrite concat_blocks. apply take_ge.
    fold T. unfold passes, T, len_words in *. nia.
  - rewrite length_map, length_seq. fold words T. unfold passes. lia.
  - intros HT -> ->. fold words T. rewrite HT.
    change (passes 1000 (300 - 50)) with 4%nat.
    split; [|split; [done|]].
    + simpl. unfold window. fold T. rewrite HT.
      rewrite !split_join by (apply py_slice_tokens, split_tokens).
      reflexivity.
    + unfold py_slice, clamp. fold (len_words words). fold T. rewrite HT.
      simpl. rewrite length_take, length_drop.
      unfold T, len_words in HT. lia.
Qed.

Lemma segmentation_coverage_witness :
  exists cs : list string,
    chunk_text_with_overlap 6 "a b c d e" 3 1 = Some cs
    /\ concat (map (fun c => take 2 (split c)) cs) = split "a b c d e"
    /\ Z.of_nat (length cs) = 3.
Proof.
  destruct (segmentation_coverage "a b c d e" 3 1 ltac:(lia))
    as (cs & Hret & Hcat & Hlen & _).
  exists cs. split; [|split].
  - apply Hret. vm_compute. lia.
  - exact Hcat.
  - exact Hlen.
Defined.

(** C5 (as the claim states it).  On "a b c d" with [chunk_size = 5] and
    [overlap = 2] the chunks are "a b c d" and "d": the first is cut short
    by the end of the text, its trailing two tokens are c, d, and the second
    chunk has the single token d. *)
Lemma overlap_invariant_counterexample :
  chunk_text_with_overlap 5 "a b c d" 5 2 = Some ["a b c d"; "d"]
  /\ lastn 2 (split "a b c d") <> take 2 (split "d").
Proof. vm_compute. split; congruence. Qed.

(** C5 (amended).  With [0 <= overlap < chunk_size], for adjacent chunks
    [i] and [i+1] of a returned chunk list: the tokens of chunk [i] from
    position [chunk_size - overlap] on are the leading [overlap] tokens of
    chunk [i+1]; and when chunk [i] has the full [chunk_size] tokens, its
    trailing [overlap] tokens equal the leading [overlap] tokens of chunk
    [i+1]. *)
Theorem overlap_invariant (fuel : nat) (text : string) (C O : Z)
    (cs : list string) (i : nat) (ci cj : string) :
  0 <= O < C ->
  chunk_text_with_overlap fuel text C O = Some cs ->
  cs !! i = Some ci -> cs !! S i = Some cj ->
  drop (Z.to_nat (C - O)) (split ci) = take (Z.to_nat O) (split cj)
  /\ (length (split ci) = Z.to_nat C ->
      lastn (Z.to_nat O) (split ci) = take (Z.to_nat O) (split cj)).
Proof.
  intros HCO Hcs Hi Hj.
  apply chunk_text_returns in Hcs; [|lia]. subst cs.
  apply closed_form_lookup in Hi as [_ ->].
  apply closed_form_lookup in Hj as [_ ->].
  rewrite !split_window by nia.
  set (words := split text).
  assert (drop (Z.to_nat (C - O))
            (take (Z.to_nat C) (drop (Z.to_nat (Z.of_nat i * (C - O))) words))
          = take (Z.to_nat O)
              (take (Z.to_nat C)
                 (drop (Z.to_nat (Z.of_nat (S i) * (C - O))) words))) as Hgen.
  { rewrite take_take, Nat.min_l by lia.
    replace (Z.to_nat (Z.of_nat (S i) * (C - O)))
      with (Z.to_nat (Z.of_nat i * (C - O)) + Z.to_nat (C - O))%nat by nia.
    rewrite <- drop_drop.
    rewrite (take_drop_commute _ (Z.to_nat O) (Z.to_nat (C - O))).
    do 2 f_equal. lia. }
  split; [exact Hgen|].
  intros Hfull. rewrite <- Hgen. unfold lastn. rewrite Hfull.
  f_equal. lia.
Qed.

Lemma overlap_invariant_witness :
  drop 2 (split "a b c") = take 1 (split "c d e")
  /\ (length (split "a b c") = 3%nat ->
      lastn 1 (split "a b c") = take 1 (split "c d e")).
Proof.
  apply (overlap_invariant 6 "a b c d e" 3 1 ["a b c"; "c d e"; "e"] 0
           "a b c" "c d e"); [lia|reflexivity|reflexivity|reflexivity].
Defined.

(** C10.  For any [chunk_size] and [overlap], two texts with the same
    [split()] token list give the same result at every fuel; and every
    chunk of a returned list is a slice of the token list joined by single
    spaces, equal to the single-space join of its own tokens, so that no
    whitespace of the input text survives in it. *)
Theorem chunks_depend_on_tokens (fuel : nat) (text1 text2 : string)
    (C O : Z) :
  split text1 = split text2 ->
  chunk_text_with_overlap fuel text1 C O
  = chunk_text_with_overlap fuel text2 C O
  /\ forall cs c,
       chunk_text_with_overlap fuel text1 C O = Some cs -> c ∈ cs ->
       (exists a b, c = join " " (py_slice (split text1) a b))
       /\ c = join " " (split c).
Proof.
  intros Heq. split.
  - unfold chunk_text_with_overlap. by rewrite Heq.
  - intros cs c Hcs Hc. unfold chunk_text_with_overlap in Hcs.
    destruct (while _ _ _ _ _) as [st|] eqn:Hw; [|done].
    simpl in Hcs. inversion Hcs; subst cs. clear Hcs.
    apply while_returns in Hw as (k & _ & -> & _).
    apply iterate_chunks_form in Hc as (a & b & ->).
    split; [by eauto|].
    by rewrite split_join by (apply py_slice_tokens, split_tokens).
Qed.

Lemma chunks_depend_on_tokens_witness :
  chunk_text_with_overlap 5
    ("a   b" +:+ String newline "" +:+ "c" +:+ String newline "") 2 1
  = chunk_text_with_overlap 5 "a b c" 2 1.
Proof.
  apply (chunks_depend_on_tokens 5
           ("a   b" +:+ String newline "" +:+ "c" +:+ String newline "")
           "a b c" 2 1).
  reflexivity.
Defined.

(** C6 (what the code does).  No check precedes the loop.  When
    [overlap >= chunk_size] and the text has at least one token, the window
    start never moves forward: after any number of passes it is still at or
    below 0, one chunk has been appended per pass, and the function returns
    at no fuel. *)
Theorem non_advancing_window_loops (text : string) (C O : Z) :
  C <= O -> split text <> [] ->
  (forall k, start (iterate (split text) C O k init) <= 0
             /\ length (chunks (iterate (split text) C O k init)) = k)
  /\ forall fuel, chunk_text_with_overlap fuel text C O = None.
Proof.
  intros HCO Hne.
  assert (forall k, start (iterate (split text) C O k init) <= 0) as Hstart.
  { intros k. rewrite iterate_start. simpl. nia. }
  split.
  - intros k. split; [done|].
    rewrite iterate_chunks. simpl. by rewrite length_map, length_seq.
  - intros fuel. unfold chunk_text_with_overlap.
    rewrite while_runs_out; [done|].
    intros i _. unfold loop_cond. apply Z.ltb_lt.
    specialize (Hstart i). unfold len_words.
    destruct (split text); [done|]. simpl length. lia.
Qed.

Lemma non_advancing_window_loops_witness :
  (forall k, start (iterate (split "a") 1 1 k init) <= 0
             /\ length (chunks (iterate (split "a") 1 1 k init)) = k)
  /\ forall fuel, chunk_text_with_overlap fuel "a" 1 1 = None.
Proof.
  apply (non_advancing_window_loops "a" 1 1); [lia|].
  vm_compute. discriminate.
Defined.

(** The first passes at [chunk_size = overlap = 1] on the text "a". *)
Example non_advancing_window_demo :
  iterate (split "a") 1 1 3 init = {| start := 0; chunks := ["a"; "a"; "a"] |}.
Proof. reflexivity. Qed.

(** ** The Q/A line parser *)

Section Parser.
Import QA.

Lemma a_line_not_q (l : string) :
  startswith l "A:" = true -> startswith l "Q:" = false.
Proof.
  destruct l as [|c l]; [done|]. cbn [startswith].
  destruct (Ascii.eqb_spec "A" c) as [<-|]; [|done]. done.
Qed.

Lemma parse_lines_snoc (st : parser_state) (lines : list string)
    (l : string) :
  parse_lines st (lines ++ [l]) = parse_line (parse_lines st lines) l.
Proof. unfold parse_lines. by rewrite fold_left_app. Qed.

Lemma parse_line_stray (st : parser_state) (l : string) :
  startswith l "Q:" = false -> startswith l "A:" = false ->
  parse_line st l = st.
Proof. intros HQ HA. unfold parse_line. by rewrite HQ, HA. Qed.

Lemma parse_line_orphan_answer (st : parser_state) (l : string) :
  startswith l "A:" = true -> pending (current_q st) = None ->
  parse_line st l = st.
Proof.
  intros HA Hp. unfold parse_line.
  by rewrite (a_line_not_q l HA), HA, Hp.
Qed.

Lemma parse_lines_filter (st : parser_state) (lines : list string) :
  parse_lines st
    (List.filter (fun l => startswith l "Q:" || startswith l "A:") lines)
  = parse_lines st lines.
Proof.
  revert st. induction lines as [|l lines IH]; intros st; [done|].
  simpl. destruct (startswith l "Q:") eqn:HQ; simpl.
  - apply IH.
  - destruct (startswith l "A:") eqn:HA; simpl; [apply IH|].
    unfold parse_lines at 2. simpl. rewrite parse_line_stray by done.
    apply IH.
Qed.

Lemma parse_lines_no_answer (st : parser_state) (lines : list string) :
  (forall l, l ∈ lines -> startswith l "A:" = false) ->
  qa_list (parse_lines st lines) = qa_list st.
Proof.
  revert st. induction lines as [|l lines IH]; intros st H; [done|].
  unfold parse_lines. simpl. fold (parse_lines (parse_line st l) lines).
  rewrite IH by (intros; apply H; by right).
  unfold parse_line. rewrite (H l) by left.
  by destruct (startswith l "Q:").
Qed.

Lemma paired_snoc (lines : list string) (l : string) (r : qa) :
  paired lines r -> paired (lines ++ [l]) r.
Proof.
  intros (i & j & lq & la & Hij & Hi & Hj & HQ & HA & -> & Hne & Hbetween).
  exists i, j, lq, la. repeat split; try done.
  - by apply lookup_app_l_Some.
  - by apply lookup_app_l_Some.
  - rewrite lookup_app_l in H0; [by eapply Hbetween|].
    apply lookup_lt_Some in Hj. lia.
  - rewrite lookup_app_l in H0; [by eapply Hbetween|].
    apply lookup_lt_Some in Hj. lia.
Qed.

Lemma pending_nonempty (o : option string) (q : string) :
  pending o = Some q -> o = Some q /\ q <> "".
Proof.
  destruct o as [[|c s]|]; simpl; intros H; inversion H; by subst.
Qed.

Lemma parser_inv_step (lines : list string) (st : parser_state)
    (l : string) :
  parser_inv lines st -> parser_inv (lines ++ [l]) (parse_line st l).
Proof.
  intros [Hrec Hpend]. unfold parse_line.
  destruct (startswith l "Q:") eqn:HQ; [|destruct (startswith l "A:") eqn:HA].
  - split; cbn [current_q qa_list].
    + intros r Hr. by apply paired_snoc, Hrec.
    + intros q Hq. apply pending_nonempty in Hq as [Hq Hne].
      inversion Hq; subst q. clear Hq.
      exists (length lines), l. repeat split; try done.
      * by rewrite lookup_app_r, Nat.sub_diag by lia.
      * apply lookup_lt_Some in H0. rewrite length_app in H0. simpl in H0. lia.
      * apply lookup_lt_Some in H0. rewrite length_app in H0. simpl in H0. lia.
  - destruct (pending (current_q st)) as [q|] eqn:Hp.
    + split; cbn [current_q qa_list]; [|done].
      intros r Hr. apply elem_of_app in Hr as [Hr|Hr].
      { by apply paired_snoc, Hrec. }
      apply list_elem_of_singleton in Hr as ->.
      destruct (Hpend q eq_refl) as (i & lq & Hi & HQi & -> & Hne & Hafter).
      pose proof (lookup_lt_Some _ _ _ Hi) as Hlt.
      exists i, (length lines), lq, l. repeat split; try done.
      * by apply lookup_app_l_Some.
      * by rewrite lookup_app_r, Nat.sub_diag by lia.
      * rewrite lookup_app_l in H0 by lia. eapply Hafter; [|done]. lia.
      * rewrite lookup_app_l in H0 by lia. eapply Hafter; [|done]. lia.
    + split; [intros r Hr; by apply paired_snoc, Hrec|].
      intros q Hq. congruence.
  - split; [intros r Hr; by apply paired_snoc, Hrec|].
    intros q Hq. destruct (Hpend q Hq) as (i & lq & Hi & HQi & -> & Hne & Hafter).
    exists i, lq. repeat split; try done.
    + by apply lookup_app_l_Some.
    + destruct (decide (k < length lines)%nat) as [Hk|Hk].
      * rewrite lookup_app_l in H0 by done. by eapply Hafter.
      * rewrite lookup_app_r in H0 by lia.
        destruct (k - length lines)%nat; [|done]. simpl in H0. congruence.
    + destruct (decide (k < length lines)%nat) as [Hk|Hk].
      * rewrite lookup_app_l in H0 by done. by eapply Hafter.
      * rewrite lookup_app_r in H0 by lia.
        destruct (k - length lines)%nat; [|done]. simpl in H0. congruence.
Qed.

Lemma parser_inv_lines (lines : list string) :
  parser_inv lines (parse_lines parser_init lines).
Proof.
  induction lines as [|l lines IH] using rev_ind.
  - split; simpl; [intros r Hr; by apply elem_of_nil in Hr|done].
  - rewrite parse_lines_snoc. by apply parser_inv_step.
Qed.

End Parser.

(** C8.  The line parser of [generate_qa_from_chunk] skips malformed
    input: a line with neither prefix leaves the parser state unchanged,
    so dropping all such lines does not change the outcome; an [A:] line
    met while no non-empty question is pending leaves the state unchanged;
    a [Q:] line after which no [A:] line comes adds no record; and every
    record of the result is made of a [Q:] line and a later [A:] line,
    with only lines of neither kind between them. *)
Theorem parser_skips_malformed_lines (content : string) :
  (forall st l,
     startswith l "Q:" = false -> startswith l "A:" = false ->
     QA.parse_line st l = st)
  /\ (forall st lines,
        QA.parse_lines st
          (List.filter (fun l => startswith l "Q:" || startswith l "A:") lines)
        = QA.parse_lines st lines)
  /\ (forall st l,
        startswith l "A:" = true -> QA.pending (QA.current_q st) = None ->
        QA.parse_line st l = st)
  /\ (forall st lq rest,
        startswith lq "Q:" = true ->
        (forall l, l ∈ rest -> startswith l "A:" = false) ->
        QA.qa_list (QA.parse_lines st (lq :: rest)) = QA.qa_list st)
  /\ (forall r, r ∈ QA.parse_qa content ->
        QA.paired (split_on newline content) r).
Proof.
  split; [|split; [|split; [|split]]].
  - apply parse_line_stray.
  - apply parse_lines_filter.
  - apply parse_line_orphan_answer.
  - intros st lq rest HQ Hrest. apply parse_lines_no_answer.
    intros l Hl. apply elem_of_cons in Hl as [->|Hl]; [|by apply Hrest].
    destruct (startswith lq "A:") eqn:HA; [|done].
    apply a_line_not_q in HA. congruence.
  - intros r Hr. by apply (parser_inv_lines (split_on newline content)).
Qed.

(** Stray lines, an orphan answer, a question with an empty text and a
    question left without answer around one well-formed pair. *)
Example parse_qa_demo :
  QA.parse_qa ("Here are the pairs:" +:+ QA.nl +:+ "A: orphan" +:+ QA.nl
               +:+ "Q:   " +:+ QA.nl +:+ "A: to nothing" +:+ QA.nl
               +:+ "Q: first try" +:+ QA.nl +:+ "Q: What is it? " +:+ QA.nl
               +:+ "(thinking)" +:+ QA.nl +:+ "A:  A thing." +:+ QA.nl
               +:+ "Q: left open")
  = [QA.make_qa "What is it?" "A thing."].
Proof. reflexivity. Qed.

Lemma parser_skips_malformed_lines_witness :
  QA.parse_line QA.parser_init "A: orphan" = QA.parser_init
  /\ QA.qa_list (QA.parse_lines QA.parser_init ["Q: left open"; "stray"]) = []
  /\ QA.paired ["Q: What?"; "A: This."] (QA.make_qa "What?" "This.").
Proof.
  destruct (parser_skips_malformed_lines
              ("Q: What?" +:+ QA.nl +:+ "A: This."))
    as (_ & _ & Horphan & Hopen & Hpaired).
  split; [|split].
  - apply Horphan; reflexivity.
  - apply (Hopen QA.parser_init "Q: left open" ["stray"]); [reflexivity|].
    intros l Hl. apply list_elem_of_singleton in Hl as ->. reflexivity.
  - apply Hpaired. vm_compute. by left.
Defined.

(** ** [strip] and [lower] *)

Lemma rstrip_idem (s : string) : rstrip (rstrip s) = rstrip s.
Proof.
  induction s as [|c s IH]; [done|]. simpl.
  destruct (rstrip s) as [|d r] eqn:Hr.
  - destruct (isspace c) eqn:Hc; [done|]. simpl. by rewrite Hc.
  - simpl in *. by rewrite IH.
Qed.

Lemma lstrip_head (s : string) :
  lstrip s = "" \/ exists c t, lstrip s = String c t /\ isspace c = false.
Proof.
  induction s as [|c s IH]; [by left|]. simpl.
  destruct (isspace c) eqn:Hc; [done|]. right. eauto.
Qed.

Lemma rstrip_head (c : ascii) (t : string) :
  isspace c = false -> exists u, rstrip (String c t) = String c u.
Proof.
  intros Hc. simpl. destruct (rstrip t); [|by eauto].
  rewrite Hc. eauto.
Qed.

Lemma strip_idem (s : string) : strip (strip s) = strip s.
Proof.
  unfold strip. destruct (lstrip_head s) as [->|(c & t & -> & Hc)]; [done|].
  destruct (rstrip_head c t Hc) as [u Hu]. rewrite Hu.
  cbn [lstrip]. rewrite Hc, <- Hu. apply rstrip_idem.
Qed.

Lemma lower_nonempty (s : string) : s <> "" -> lower s <> "".
Proof. by destruct s. Qed.

(** ** The de-duplicating aggregation *)

Lemma elem_of_concat_map {A B} (f : A -> list B) (l : list A) (y : B) :
  y ∈ concat (map f l) <-> exists x, x ∈ l /\ y ∈ f x.
Proof.
  rewrite list_elem_of_In, in_concat. split.
  - intros (ys & Hys & Hy). apply in_map_iff in Hys as (x & <- & Hx).
    exists x. by rewrite !list_elem_of_In.
  - intros (x & Hx & Hy). exists (f x).
    rewrite !list_elem_of_In in *. split; [|done].
    apply in_map_iff. eauto.
Qed.

Section Aggregation.
Import QA.

Lemma user_msg_make_qa (q a : string) :
  user_msg (make_qa q a) = lower (strip q).
Proof. reflexivity. Qed.

(** A record the parser emits has a non-empty normalised question. *)
Lemma parse_qa_user_msg (content : string) (r : qa) :
  r ∈ parse_qa content -> user_msg r <> "".
Proof.
  intros Hr. apply (parser_inv_lines (split_on newline content)) in Hr
    as (i & j & lq & la & _ & _ & _ & _ & _ & -> & Hne & _).
  rewrite user_msg_make_qa, strip_idem. by apply lower_nonempty.
Qed.

Lemma payload_user_msg client (chunks : list string) (idx : nat) (r : qa) :
  r ∈ payload client chunks idx -> user_msg r <> "".
Proof.
  unfold payload, generate_qa_from_chunk.
  destruct (chunks !! idx) as [chunk|]; [|by intros ?%elem_of_nil].
  destruct (client idx _) as [[[|[content|] ?]]|e]; simpl;
    try by intros ?%elem_of_nil.
  apply parse_qa_user_msg.
Qed.

Lemma truthy_nonempty (s : string) : truthy s = true <-> s <> "".
Proof. by destruct s. Qed.

(** The loop [for qa in qa_pairs] appends the kept records. *)
Lemma fold_add_qa (l : list qa) (st : agg_state) :
  all_qa (fold_left add_qa l st) = all_qa st ++ kept (seen_questions st) l.
Proof.
  revert st. induction l as [|r l IH]; intros st; simpl.
  - by rewrite app_nil_r.
  - rewrite IH. unfold add_qa.
    destruct (andb _ _); simpl; [|done].
    by rewrite <- app_assoc.
Qed.

Lemma kept_elem (seen : gset string) (l : list qa) (x : qa) :
  x ∈ kept seen l -> x ∈ l /\ (user_msg x ∉ seen) /\ user_msg x <> "".
Proof.
  revert seen. induction l as [|r l IH]; intros seen; simpl.
  - by intros ?%elem_of_nil.
  - destruct (truthy (user_msg r)) eqn:Ht; simpl.
    + destruct (bool_decide_reflect (user_msg r ∈ seen)) as [Hin|Hin]; simpl.
      * intros Hx. apply IH in Hx as (? & ? & ?). split; [by right|done].
      * intros Hx. apply elem_of_cons in Hx as [->|Hx].
        { split; [by left|]. split; [done|]. by apply truthy_nonempty. }
        apply IH in Hx as (? & Hnot & ?). split; [by right|].
        split; [|done]. intros ?. apply Hnot, elem_of_union. by left.
    + intros Hx. apply IH in Hx as (? & ? & ?). split; [by right|done].
Qed.

(** No two kept records have the same normalised question. *)
Lemma kept_NoDup (seen : gset string) (l : list qa) :
  NoDup (user_msg <$> kept seen l).
Proof.
  revert seen. induction l as [|r l IH]; intros seen; simpl.
  - constructor.
  - destruct (andb _ _); [|apply IH].
    simpl. constructor; [|apply IH].
    intros Hin. apply list_elem_of_fmap in Hin as (x & Hkey & Hx).
    apply kept_elem in Hx as (_ & Hnot & _).
    apply Hnot, elem_of_union. right. by apply elem_of_singleton.
Qed.

(** Among the kept records, the ones with a given non-empty normalised
    question: none if it was seen before, else the first such record of
    the list. *)
Lemma kept_first (seen : gset string) (l : list qa) (u : string) :
  u <> "" ->
  filter (fun x => user_msg x = u) (kept seen l)
  = if bool_decide (u ∈ seen) then []
    else match List.find (fun x => bool_decide (user_msg x = u)) l with
         | Some r0 => [r0]
         | None => []
         end.
Proof.
  intros Hu. revert seen. induction l as [|r l IH]; intros seen; simpl.
  - by destruct (bool_decide _).
  - destruct (truthy (user_msg r)) eqn:Ht; simpl.
    + destruct (bool_decide_reflect (user_msg r ∈ seen)) as [Hin|Hin]; simpl.
      * rewrite IH. destruct (bool_decide_reflect (u ∈ seen)); [done|].
        destruct (bool_decide_reflect (user_msg r = u)); [congruence|done].
      * destruct (bool_decide_reflect (user_msg r = u)) as [Heq|Hne].
        -- rewrite filter_cons_True by done. rewrite IH.
           rewrite bool_decide_true
             by (apply elem_of_union; right; by apply elem_of_singleton).
           rewrite bool_decide_false by congruence. done.
        -- rewrite filter_cons_False by done. rewrite IH.
           destruct (bool_decide_reflect (u ∈ seen)) as [Hs|Hs].
           ++ by rewrite bool_decide_true by (apply elem_of_union; by left).
           ++ rewrite bool_decide_false; [done|].
              rewrite elem_of_union, elem_of_singleton. by intros [?|?].
    + rewrite IH. destruct (bool_decide_reflect (u ∈ seen)); [done|].
      destruct (bool_decide_reflect (user_msg r = u)) as [Heq|]; [|done].
      apply truthy_nonempty in Hu. congruence.
Qed.

Lemma collect_state client (chunks : list string) (idx : nat)
    (evs : list event) (st : agg_state) :
  (collect client chunks (evs, st) idx).2
  = fold_left add_qa (payload client chunks idx) st.
Proof.
  unfold collect, payload.
  destruct (chunks !! idx) as [chunk|]; [|done].
  by destruct (generate_qa_from_chunk (client idx) chunk) as [wevs [l|e]].
Qed.

(** The aggregation state after the loop over the futures. *)
Lemma fold_collect client (chunks : list string) (sched : list nat)
    (evs : list event) (st : agg_state) :
  (fold_left (collect client chunks) sched (evs, st)).2
  = fold_left add_qa (concat (map (payload client chunks) sched)) st.
Proof.
  revert evs st. induction sched as [|idx sched IH]; intros evs st; [done|].
  cbn [fold_left map concat].
  rewrite fold_left_app, <- (collect_state client chunks idx evs st).
  destruct (collect client chunks (evs, st) idx) as [evs1 st1].
  apply IH.
Qed.

(** The list [process_chunks_parallel] returns: the records kept from the
    payloads in completion order. *)
Lemma process_chunks_kept client (sched : list nat) (chunks : list string)
    (w : Z) :
  (process_chunks_parallel client sched chunks w).2
  = kept ∅ (concat (map (payload client chunks) sched)).
Proof.
  unfold process_chunks_parallel.
  pose proof (fold_collect client chunks sched
                [PoolOpened w (length chunks)] agg_init) as H.
  destruct (fold_left _ _ _) as [evs st]. simpl in *.
  by rewrite H, fold_add_qa.
Qed.

End Aggregation.

(** C2.  In the list [process_chunks_parallel] returns no two records
    have the same normalised question ([strip] then [lower] of the user
    message); every record of it comes from a payload; for every record of
    the payloads, the result holds exactly one record with its normalised
    question, the first such record in completion order, answer included;
    and two payloads of one record each with the same normalised question
    give the one-record list made of the first completed. *)
Theorem dedup_first_seen (client : nat -> string -> result QA.completion)
    (sched : list nat) (chunks : list string) (w : Z) :
  let out := (QA.process_chunks_parallel client sched chunks w).2 in
  let stream := concat (map (QA.payload client chunks) sched) in
  NoDup (QA.user_msg <$> out)
  /\ (forall r, r ∈ out -> r ∈ stream)
  /\ (forall r, r ∈ stream ->
        exists r0,
          List.find (fun x => bool_decide (QA.user_msg x = QA.user_msg r))
                    stream = Some r0
          /\ filter (fun x => QA.user_msg x = QA.user_msg r) out = [r0])
  /\ (forall i j r1 r2,
        sched = [i; j] ->
        QA.payload client chunks i = [r1] ->
        QA.payload client chunks j = [r2] ->
        QA.user_msg r1 = QA.user_msg r2 ->
        out = [r1]).
Proof.
  intros out stream. subst out. rewrite process_chunks_kept. fold stream.
  assert (forall r, r ∈ stream -> QA.user_msg r <> "") as Hkey.
  { intros r Hr. apply elem_of_concat_map in Hr as (idx & _ & Hr).
    by eapply payload_user_msg. }
  split; [apply kept_NoDup|]. split; [|split].
  - intros r Hr. by apply kept_elem in Hr as [? _].
  - intros r Hr. rewrite kept_first by by apply Hkey.
    rewrite bool_decide_false by apply not_elem_of_empty.
    destruct (List.find _ stream) as [r0|] eqn:Hfind; [by eauto|].
    apply list_elem_of_In in Hr.
    apply (find_none _ _ Hfind) in Hr.
    by rewrite bool_decide_true in Hr.
  - intros i j r1 r2 -> H1 H2 Heq. subst stream. simpl in *.
    rewrite H1, H2 in *. simpl in *.
    assert (truthy (QA.user_msg r1) = true) as Ht.
    { apply truthy_nonempty, Hkey. by left. }
    rewrite <- Heq, Ht.
    rewrite (bool_decide_false (QA.user_msg r1 ∈ ∅)) by apply not_elem_of_empty.
    simpl. rewrite bool_decide_true; [done|].
    apply elem_of_union. right. by apply elem_of_singleton.
Qed.

(** Two chunks whose answers ask the same question up to case and
    surrounding blanks: the answer of the first completed is kept. *)
Example dedup_demo :
  let client (idx : nat) (_ : string) : result QA.completion :=
    match idx with
    | O => Return {| QA.choices :=
                       [Some ("Q: What is X?" +:+ QA.nl +:+ "A: first")] |}
    | _ => Return {| QA.choices :=
                       [Some ("Q:  what is x? " +:+ QA.nl +:+ "A: second")] |}
    end in
  (QA.process_chunks_parallel client [0; 1]%nat ["c0"; "c1"] 5).2
  = [QA.make_qa "What is X?" "first"]
  /\ (QA.process_chunks_parallel client [1; 0]%nat ["c0"; "c1"] 5).2
     = [QA.make_qa "what is x?" "second"].
Proof. split; vm_compute; reflexivity. Qed.

Lemma dedup_first_seen_witness :
  let client (idx : nat) (_ : string) : result QA.completion :=
    match idx with
    | O => Return {| QA.choices :=
                       [Some ("Q: What is X?" +:+ QA.nl +:+ "A: first")] |}
    | _ => Return {| QA.choices :=
                       [Some ("Q:  what is x? " +:+ QA.nl +:+ "A: second")] |}
    end in
  (QA.process_chunks_parallel client [1; 0]%nat ["c0"; "c1"] 5).2
  = [QA.make_qa "what is x?" "second"].
Proof.
  intros client.
  destruct (dedup_first_seen client [1; 0]%nat ["c0"; "c1"] 5)
    as (_ & _ & _ & Htwo).
  apply (Htwo 1%nat 0%nat (QA.make_qa "what is x?" "second")
           (QA.make_qa "What is X?" "first"));
    reflexivity.
Defined.

(** Ten chunks completing in reverse order, the call for chunk 4 failing:
    the result holds the records of the nine others and is the result of
    the run on those nine. *)
Example isolation_demo :
  let client (idx : nat) (_ : string) : result QA.completion :=
    if (idx =? 4)%nat then Raise (ServiceError "quota")
    else Return {| QA.choices :=
                     [Some ("Q: What is item " +:+ pretty idx +:+ "?"
                            +:+ QA.nl +:+ "A: An item.")] |} in
  let chunks := (fun i : nat => "chunk " +:+ pretty i) <$> seq 0 10 in
  let out := (QA.process_chunks_parallel client (reverse (seq 0 10))
                chunks 5).2 in
  length out = 9%nat
  /\ out = (QA.process_chunks_parallel client [9; 8; 7; 6; 5; 3; 2; 1; 0]%nat
              chunks 5).2
  /\ out = (fun i : nat =>
              QA.make_qa ("What is item " +:+ pretty i +:+ "?") "An item.")
           <$> [9; 8; 7; 6; 5; 3; 2; 1; 0]%nat.
Proof. vm_compute. repeat split; reflexivity. Qed.

(** ** The fan-out loops and the orchestration *)

Lemma concat_map_nonempty {A B} (f : A -> list B) (l : list A)
    `{!forall x, Decision (f x <> [])} :
  concat (map f l) = concat (map f (filter (fun x => f x <> []) l)).
Proof.
  induction l as [|x l IH]; [done|]. simpl.
  destruct (decide (f x <> [])) as [Hx|Hx].
  - rewrite filter_cons_True by done. simpl. by rewrite IH.
  - rewrite filter_cons_False by done.
    destruct (f x); [done|]. by destruct Hx.
Qed.

Lemma omap_cons_eq {A B} (f : A -> option B) (x : A) (l : list A) :
  omap f (x :: l)
  = match f x with Some y => y :: omap f l | None => omap f l end.
Proof. reflexivity. Qed.

Lemma omap_filter_is_Some {A B} (f : A -> option B) (l : list A) :
  omap f l = omap f (filter (fun x => is_Some (f x)) l).
Proof.
  induction l as [|x l IH]; [done|]. simpl.
  destruct (f x) as [y|] eqn:Hx.
  - rewrite filter_cons_True by (rewrite Hx; eauto).
    simpl. rewrite Hx. f_equal. exact IH.
  - rewrite filter_cons_False; [done|]. rewrite Hx. by intros [? ?].
Qed.

Section QAFanOut.
Import QA.
Variable client : nat -> string -> result completion.
Variable chunks : list string.

Lemma collect_events (idx : nat) (evs : list event) (st : agg_state) :
  (collect client chunks (evs, st) idx).1
  = evs ++ chunk_events client chunks idx.
Proof.
  unfold collect, chunk_events.
  destruct (chunks !! idx) as [chunk|]; [|by rewrite app_nil_r].
  destruct (generate_qa_from_chunk (client idx) chunk) as [wevs [l|e]]; simpl.
  - by rewrite app_nil_r.
  - by rewrite <- app_assoc.
Qed.

Lemma fold_collect_events (sched : list nat) (evs : list event)
    (st : agg_state) :
  (fold_left (collect client chunks) sched (evs, st)).1
  = evs ++ concat (map (chunk_events client chunks) sched).
Proof.
  revert evs st. induction sched as [|idx sched IH]; intros evs st.
  - simpl. by rewrite app_nil_r.
  - cbn [fold_left map concat].
    rewrite app_assoc, <- (collect_events idx evs st).
    destruct (collect client chunks (evs, st) idx) as [evs1 st1].
    apply IH.
Qed.

Lemma process_chunks_events (sched : list nat) (w : Z) :
  (process_chunks_parallel client sched chunks w).1
  = PoolOpened w (length chunks)
      :: concat (map (chunk_events client chunks) sched).
Proof.
  unfold process_chunks_parallel.
  pose proof (fold_collect_events sched
                [PoolOpened w (length chunks)] agg_init) as H.
  by destruct (fold_left _ _ _) as [evs st].
Qed.

(** What a worker's outcome contributes, case by case. *)
Lemma payload_cases (idx : nat) (chunk : string) :
  chunks !! idx = Some chunk ->
  match client idx (build_prompt chunk 3) with
  | Raise _ => payload client chunks idx = []
  | Return resp =>
      match choices resp with
      | Some content :: _ =>
          payload client chunks idx = parse_qa (strip content)
      | _ => payload client chunks idx = []
      end
  end.
Proof.
  intros Hc. unfold payload, generate_qa_from_chunk. rewrite Hc.
  by destruct (client idx _) as [[[|[content|] ?]]|e].
Qed.

(** A worker's own events never include the [except] branch's report. *)
Lemma generate_no_error_report (call : string -> result completion)
    (chunk : string) (idx : nat) (e : exn) :
  SayErrorProcessing idx e ∉ (generate_qa_from_chunk call chunk).1.
Proof.
  unfold generate_qa_from_chunk.
  destruct (call _) as [[[|[content|] ?]]|e']; simpl;
    intros H; repeat (apply elem_of_cons in H as [H|H]; [done|]);
    by apply elem_of_nil in H.
Qed.

(** The error report for a chunk appears exactly when its future's result
    raises. *)
Lemma error_report_iff (sched : list nat) (w : Z) (idx : nat) (e : exn) :
  SayErrorProcessing idx e ∈ (process_chunks_parallel client sched chunks w).1
  <-> idx ∈ sched
      /\ exists chunk, chunks !! idx = Some chunk
         /\ (generate_qa_from_chunk (client idx) chunk).2 = Raise e.
Proof.
  rewrite process_chunks_events, elem_of_cons, elem_of_concat_map.
  unfold chunk_events. split.
  - intros [?|(i & Hi & Hev)]; [done|].
    destruct (chunks !! i) as [chunk|] eqn:Hc; [|by apply elem_of_nil in Hev].
    pose proof (generate_no_error_report (client i) chunk idx e) as Hno.
    destruct (generate_qa_from_chunk (client i) chunk) as [wevs r] eqn:Hg.
    apply elem_of_cons in Hev as [?|Hev]; [done|].
    apply elem_of_app in Hev as [?|Hev]; [done|].
    destruct r as [l|e']; [by apply elem_of_nil in Hev|].
    apply list_elem_of_singleton in Hev. inversion Hev; subst.
    split; [done|]. exists chunk. split; [done|]. by rewrite Hg.
  - intros (Hi & chunk & Hc & He). right. exists idx. split; [done|].
    rewrite Hc. destruct (generate_qa_from_chunk (client idx) chunk) as [wevs r].
    simpl in He. subst r. right. apply elem_of_app. right. by left.
Qed.

End QAFanOut.

Section QAMain.
Import QA.
Variable files : list (string * string).
Variable client : nat -> string -> result completion.
Variable sched : list nat.

Local Abbreviation all_text := (load_all files).2.

(** The guard of [main]: nothing but the report when no text was loaded. *)
Lemma main_no_text :
  truthy (strip all_text) = false ->
  main files client sched = Some ((load_all files).1 ++ [SayNoText]).
Proof.
  unfold main. destruct (load_all files) as [evs text]. simpl.
  by intros ->.
Qed.

(** Past the guard [main] segments, fans out and saves. *)
Lemma main_runs :
  truthy (strip all_text) = true ->
  exists chunks,
    chunk_text_with_overlap (S (length (split all_text))) all_text 300 50
    = Some chunks
    /\ main files client sched
       = Some ((load_all files).1
                 ++ (process_chunks_parallel client sched chunks 5).1
                 ++ save_qa_to_jsonl
                      (process_chunks_parallel client sched chunks 5).2
                      OUTPUT_PATH).
Proof.
  unfold main. destruct (load_all files) as [evs text]. simpl.
  intros ->. simpl.
  rewrite chunk_text_closed_form by lia.
  eexists. split; [done|].
  by destruct (process_chunks_parallel _ _ _ _).
Qed.

End QAMain.

(** A text that [strip] empties has no token. *)
Lemma lstrip_empty_split (s : string) : lstrip s = "" -> split s = [].
Proof.
  unfold split. induction s as [|c s IH]; [done|]. simpl.
  destruct (isspace c); [done|discriminate].
Qed.

Lemma strip_empty_split (s : string) : strip s = "" -> split s = [].
Proof.
  unfold strip. intros H. apply lstrip_empty_split.
  destruct (lstrip_head s) as [Hs|(c & t & Hs & Hc)]; [done|].
  rewrite Hs in H. destruct (rstrip_head c t Hc) as [u Hu]. congruence.
Qed.

Section SummaryFanOut.
Import Summary.
Variable llm : nat -> string -> string -> result string.
Variable docs : list string.

Lemma fold_collect_summaries (sched : list nat) (evs : list event)
    (results : list string) :
  fold_left (collect llm docs) sched (evs, results)
  = (evs ++ concat (map (doc_events llm docs) sched),
     results ++ omap (partial llm docs) sched).
Proof.
  revert evs results.
  induction sched as [|idx sched IH]; intros evs results.
  - simpl. by rewrite !app_nil_r.
  - cbn [fold_left map concat]. unfold collect at 2.
    unfold doc_events at 1. rewrite omap_cons_eq.
    assert (partial llm docs idx
            = match docs !! idx with
              | None => None
              | Some doc =>
                  match (summarize_chunk (llm idx) doc idx).2 with
                  | Return s => Some s
                  | Raise _ => None
                  end
              end) as Hp by done.
    destruct (docs !! idx) as [doc|].
    + destruct (summarize_chunk (llm idx) doc idx) as [wevs [x|e]];
        simpl in Hp; rewrite Hp, IH; f_equal.
      * by rewrite app_nil_r, app_assoc.
      * by rewrite <- app_assoc.
      * by rewrite !app_assoc.
    + rewrite Hp, IH. done.
Qed.

Lemma summarize_no_error_report (invoke : string -> string -> result string)
    (doc : string) (i idx : nat) (e : exn) :
  SayErrorSummarizing idx e ∉ (summarize_chunk invoke doc i).1.
Proof.
  unfold summarize_chunk.
  destruct (invoke _ _); simpl;
    intros H; repeat (apply elem_of_cons in H as [H|H]; [done|]);
    by apply elem_of_nil in H.
Qed.

Lemma summarize_raises (invoke : string -> string -> result string)
    (doc : string) (i : nat) (e : exn) :
  (summarize_chunk invoke doc i).2 = Raise e
  <-> invoke SYSTEM_NOTES doc = Raise e.
Proof. unfold summarize_chunk. by destruct (invoke _ _). Qed.

Lemma summary_error_report_iff (sched : list nat) (idx : nat) (e : exn) :
  SayErrorSummarizing idx e ∈ (summarize_chunks_parallel llm sched docs).1
  <-> idx ∈ sched
      /\ exists doc, docs !! idx = Some doc
         /\ llm idx SYSTEM_NOTES doc = Raise e.
Proof.
  unfold summarize_chunks_parallel. rewrite fold_collect_summaries.
  cbn [fst]. rewrite <- app_comm_cons, app_nil_l.
  rewrite elem_of_cons, elem_of_concat_map.
  unfold doc_events. split.
  - intros [?|(i & Hi & Hev)]; [done|].
    destruct (docs !! i) as [doc|] eqn:Hd; [|by apply elem_of_nil in Hev].
    pose proof (summarize_no_error_report (llm i) doc i idx e) as Hno.
    pose proof (summarize_raises (llm i) doc i) as Hr.
    destruct (summarize_chunk (llm i) doc i) as [wevs r].
    apply elem_of_app in Hev as [?|Hev]; [done|].
    destruct r as [x|e']; [by apply elem_of_nil in Hev|].
    apply list_elem_of_singleton in Hev. inversion Hev; subst.
    split; [done|]. exists doc. split; [done|]. by apply Hr.
  - intros (Hi & doc & Hd & He). right. exists idx. split; [done|].
    rewrite Hd. apply summarize_raises with (i := idx) in He.
    destruct (summarize_chunk (llm idx) doc idx) as [wevs r].
    simpl in He. subst r. apply elem_of_app. right. by left.
Qed.

End SummaryFanOut.

(** The reduction and the save of [run_pipeline], once the partial
    summaries are collected. *)
Lemma run_pipeline_unfold (text : string)
    (splitter : Z -> Z -> string -> list string)
    (llm : nat -> string -> string -> result string)
    (merge_llm : string -> string -> result string) (sched : list nat) :
  let docs := splitter 1200 0 text in
  let fan := Summary.summarize_chunks_parallel llm sched docs in
  let user := join (String newline (String newline "")) fan.2 in
  let evs := [Summary.SayLoaded Summary.INPUT_FILE;
              Summary.SaySplit (length docs)]
             ++ fan.1
             ++ [Summary.SayMerging;
                 Summary.LlmInvoked Summary.SYSTEM_MERGE user] in
  Summary.run_pipeline (Some text) splitter llm merge_llm sched
  = match merge_llm Summary.SYSTEM_MERGE user with
    | Raise e => (evs, Raise e)
    | Return final =>
        (evs ++ Summary.SayFinalCreated
             :: Summary.save_summary final Summary.OUTPUT_FILE,
         Return tt)
    end.
Proof.
  intros docs fan user evs. subst evs user fan docs.
  unfold Summary.run_pipeline, Summary.split_text,
    Summary.merge_partial_summaries. simpl.
  destruct (Summary.summarize_chunks_parallel _ _ _) as [evs2 partials].
  simpl. destruct (merge_llm _ _); simpl; f_equal.
  - by rewrite <- !app_assoc.
Qed.

(** What is printed and sent for one chunk, by the outcome of its call. *)
Lemma chunk_events_cases (client : nat -> string -> result QA.completion)
    (chunks : list string) (idx : nat) (chunk : string) :
  chunks !! idx = Some chunk ->
  QA.chunk_events client chunks idx
  = QA.SaySubmitting idx (length chunks)
      :: QA.ClientCalled (QA.build_prompt chunk 3)
      :: match client idx (QA.build_prompt chunk 3) with
         | Raise e => [QA.SayApiError e]
         | Return resp =>
             match QA.choices resp with
             | [] => [QA.SayErrorProcessing idx IndexError]
             | None :: _ => [QA.SayErrorProcessing idx AttributeError]
             | Some _ :: _ => []
             end
         end.
Proof.
  intros Hc. unfold QA.chunk_events, QA.generate_qa_from_chunk. rewrite Hc.
  by destruct (client idx _) as [[[|[content|] ?]]|e].
Qed.

(** C3 (as the claim states it).  Three chunks completing in order: the
    call for chunk 0 raises, the answer for chunk 1 has no parsable pair,
    chunk 2 succeeds.  The run goes on and returns the record of chunk 2,
    but neither failure is recorded for its chunk: the first is printed as
    an API error that names no chunk, the second is not reported at all. *)
Lemma failure_record_counterexample :
  QA.process_chunks_parallel
    (fun idx _ =>
       match idx with
       | 0%nat => Raise (ServiceError "quota")
       | 1%nat => Return {| QA.choices := [Some "I cannot answer."] |}
       | _ => Return {| QA.choices :=
                          [Some ("Q: Who?" +:+ QA.nl +:+ "A: Saud.")] |}
       end)
    [0; 1; 2]%nat ["c0"; "c1"; "c2"] 5
  = ([QA.PoolOpened 5 3;
      QA.SaySubmitting 0 3; QA.ClientCalled (QA.build_prompt "c0" 3);
      QA.SayApiError (ServiceError "quota");
      QA.SaySubmitting 1 3; QA.ClientCalled (QA.build_prompt "c1" 3);
      QA.SaySubmitting 2 3; QA.ClientCalled (QA.build_prompt "c2" 3)],
     [QA.make_qa "Who?" "Saud."]).
Proof. vm_compute. reflexivity. Qed.

(** C3 (amended).  Failing generation calls are isolated, and recorded as
    follows.
    QA mode: the list [process_chunks_parallel] returns is what the
    aggregation keeps from the payloads of the chunks with a non-empty
    payload, and is the list the same run returns on those chunks alone; a
    call that raises, or answers with no choice, no content or no parsable
    pair, has an empty payload.  The events of the run are those of its
    chunks in completion order; a chunk whose call raises is reported as an
    API error that names no chunk, a chunk answered without choice or
    content is reported as an error with its index, and a chunk answered
    with text is not reported, parsable or not; so the report of a failed
    future names exactly the chunks whose worker raised.  Whenever text was
    loaded, [main] runs to the write of that list and of its length.
    Summary mode: [summarize_chunks_parallel] returns the summaries of the
    calls that returned, in completion order, as it does on those documents
    alone, and reports with their index exactly the documents whose call
    raised; given an answer to the reduction call, [run_pipeline] ends
    normally with the write of that answer. *)
Theorem failures_are_isolated :
  (forall (client : nat -> string -> result QA.completion)
          (sched : list nat) (chunks : list string) (w : Z),
     let ok := filter (fun i => QA.payload client chunks i <> []) sched in
     let run := QA.process_chunks_parallel client sched chunks w in
     run.2 = QA.kept ∅ (concat (map (QA.payload client chunks) ok))
     /\ run.2 = (QA.process_chunks_parallel client ok chunks w).2
     /\ (forall idx chunk,
           chunks !! idx = Some chunk ->
           match client idx (QA.build_prompt chunk 3) with
           | Raise _ => QA.payload client chunks idx = []
           | Return resp =>
               match QA.choices resp with
               | Some content :: _ =>
                   QA.payload client chunks idx = QA.parse_qa (strip content)
               | _ => QA.payload client chunks idx = []
               end
           end)
     /\ run.1 = QA.PoolOpened w (length chunks)
                  :: concat (map (QA.chunk_events client chunks) sched)
     /\ (forall idx chunk,
           chunks !! idx = Some chunk ->
           QA.chunk_events client chunks idx
           = QA.SaySubmitting idx (length chunks)
               :: QA.ClientCalled (QA.build_prompt chunk 3)
               :: match client idx (QA.build_prompt chunk 3) with
                  | Raise e => [QA.SayApiError e]
                  | Return resp =>
                      match QA.choices resp with
                      | [] => [QA.SayErrorProcessing idx IndexError]
                      | None :: _ => [QA.SayErrorProcessing idx AttributeError]
                      | Some _ :: _ => []
                      end
                  end)
     /\ (forall idx e,
           QA.SayErrorProcessing idx e ∈ run.1
           <-> idx ∈ sched
               /\ exists chunk, chunks !! idx = Some chunk
                  /\ (QA.generate_qa_from_chunk (client idx) chunk).2
                     = Raise e))
  /\ (forall (files : list (string * string))
             (client : nat -> string -> result QA.completion)
             (sched : list nat),
        truthy (strip (QA.load_all files).2) = true ->
        exists chunks,
          chunk_text_with_overlap
            (S (length (split (QA.load_all files).2)))
            (QA.load_all files).2 300 50 = Some chunks
          /\ let run := QA.process_chunks_parallel client sched chunks 5 in
             QA.main files client sched
             = Some ((QA.load_all files).1 ++ run.1
                     ++ [QA.FileWritten QA.OUTPUT_PATH run.2;
                         QA.SaySaved (length run.2) QA.OUTPUT_PATH]))
  /\ (forall (llm : nat -> string -> string -> result string)
             (sched : list nat) (docs : list string),
        let ok := filter (fun i => is_Some (Summary.partial llm docs i))
                         sched in
        let run := Summary.summarize_chunks_parallel llm sched docs in
        run.2 = omap (Summary.partial llm docs) sched
        /\ run.2 = (Summary.summarize_chunks_parallel llm ok docs).2
        /\ (forall idx e,
              Summary.SayErrorSummarizing idx e ∈ run.1
              <-> idx ∈ sched
                  /\ exists doc, docs !! idx = Some doc
                     /\ llm idx Summary.SYSTEM_NOTES doc = Raise e))
  /\ (forall (text : string) (splitter : Z -> Z -> string -> list string)
             (llm : nat -> string -> string -> result string)
             (merge_llm : string -> string -> result string)
             (sched : list nat) (final : string),
        let docs := splitter 1200 0 text in
        let partials := omap (Summary.partial llm docs) sched in
        merge_llm Summary.SYSTEM_MERGE
          (join (String newline (String newline "")) partials)
        = Return final ->
        exists evs,
          Summary.run_pipeline (Some text) splitter llm merge_llm sched
          = (evs ++ [Summary.FileWritten Summary.OUTPUT_FILE final;
                     Summary.SaySummarySaved Summary.OUTPUT_FILE],
             Return tt)).
Proof.
  split; [|split; [|split]].
  - intros client sched chunks w ok run. subst ok run.
    split; [|split; [|split; [|split; [|split]]]].
    + by rewrite process_chunks_kept, <- concat_map_nonempty.
    + by rewrite !process_chunks_kept, <- concat_map_nonempty.
    + apply payload_cases.
    + apply process_chunks_events.
    + apply chunk_events_cases.
    + apply error_report_iff.
  - intros files client sched Ht.
    destruct (main_runs files client sched Ht) as (chunks & Hc & Hrun).
    exists chunks. split; [done|]. exact Hrun.
  - intros llm sched docs ok run. subst ok run.
    unfold Summary.summarize_chunks_parallel.
    rewrite !fold_collect_summaries. cbn [snd app].
    split; [done|]. split; [apply omap_filter_is_Some|].
    intros idx e.
    pose proof (summary_error_report_iff llm docs sched idx e) as H.
    unfold Summary.summarize_chunks_parallel in H.
    by rewrite fold_collect_summaries in H.
  - intros text splitter llm merge_llm sched final docs partials Hm.
    rewrite run_pipeline_unfold. fold docs.
    unfold Summary.summarize_chunks_parallel.
    rewrite fold_collect_summaries. cbn [snd fst app].
    fold partials. rewrite Hm. eexists (_ :: _ :: _ :: _).
    rewrite cons_middle, app_assoc. reflexivity.
Qed.

Lemma failures_are_isolated_witness :
  exists evs,
    Summary.run_pipeline (Some "one two") (fun _ _ t => split t)
      (fun idx _ doc =>
         if (idx =? 0)%nat then Raise (ServiceError "quota")
         else Return ("notes on " +:+ doc))
      (fun _ user => Return ("merged: " +:+ user)) [1; 0]%nat
    = (evs ++ [Summary.FileWritten Summary.OUTPUT_FILE "merged: notes on two";
               Summary.SaySummarySaved Summary.OUTPUT_FILE],
       Return tt).
Proof.
  destruct failures_are_isolated as (_ & _ & _ & Hrun).
  apply (Hrun "one two" (fun _ _ t => split t)
           (fun idx _ doc =>
              if (idx =? 0)%nat then Raise (ServiceError "quota")
              else Return ("notes on " +:+ doc))
           (fun _ user => Return ("merged: " +:+ user)) [1; 0]%nat
           "merged: notes on two").
  reflexivity.
Defined.

(** ** Runs without input or without results *)

Lemma concat_map_nil {A B} (f : A -> list B) (l : list A) :
  (forall x, x ∈ l -> f x = []) -> concat (map f l) = [].
Proof.
  induction l as [|x l IH]; intros H; [done|]. simpl.
  rewrite (H x) by left. apply IH. intros y Hy. apply H. by right.
Qed.

Lemma omap_none {A B} (f : A -> option B) (l : list A) :
  (forall x, x ∈ l -> f x = None) -> omap f l = [].
Proof.
  induction l as [|x l IH]; intros H; [done|].
  rewrite omap_cons_eq, (H x) by left. apply IH.
  intros y Hy. apply H. by right.
Qed.

Lemma load_step_events (files : list (string * string))
    (evs : list QA.event) (t : string) :
  (fold_left QA.load_step files (evs, t)).1
  = evs ++ map (fun f => QA.SayLoading f.1) files.
Proof.
  revert evs t. induction files as [|[path text] files IH]; intros evs t.
  - simpl. by rewrite app_nil_r.
  - simpl. rewrite IH. by rewrite <- app_assoc.
Qed.

(** The loading loop only reports the files it loads. *)
Lemma load_all_events (files : list (string * string)) :
  (QA.load_all files).1 = map (fun f => QA.SayLoading f.1) files.
Proof. unfold QA.load_all. by rewrite load_step_events. Qed.

(** C4 (as the claim states it).  With every generation call failing, the
    QA run ends normally after writing an artifact of zero records, and the
    summary run still makes the reduction call, on the empty text, and
    writes its answer. *)
Lemma empty_result_counterexample :
  QA.main [("data/cv.txt", "some text")]
    (fun _ _ => Raise (ServiceError "down")) [0%nat]
  = Some [QA.SayLoading "data/cv.txt"; QA.PoolOpened 5 1;
          QA.SaySubmitting 0 1;
          QA.ClientCalled (QA.build_prompt "some text" 3);
          QA.SayApiError (ServiceError "down");
          QA.FileWritten QA.OUTPUT_PATH [];
          QA.SaySaved 0 QA.OUTPUT_PATH]
  /\ Summary.run_pipeline (Some "some text") (fun _ _ t => [t])
       (fun _ _ _ => Raise (ServiceError "down")) (fun _ _ => Return "S")
       [0%nat]
     = ([Summary.SayLoaded Summary.INPUT_FILE; Summary.SaySplit 1;
         Summary.PoolOpened 5 1; Summary.SaySummarizing 0;
         Summary.LlmInvoked Summary.SYSTEM_NOTES "some text";
         Summary.SayErrorSummarizing 0 (ServiceError "down");
         Summary.SayMerging;
         Summary.LlmInvoked Summary.SYSTEM_MERGE "";
         Summary.SayFinalCreated;
         Summary.FileWritten Summary.OUTPUT_FILE "S";
         Summary.SaySummarySaved Summary.OUTPUT_FILE],
        Return tt).
Proof. split; vm_compute; reflexivity. Qed.

(** C4 (amended).  When no chunk yields a usable result the run does not
    fail at the aggregation boundary.  QA mode: [main] still calls
    [save_qa_to_jsonl], which writes an artifact of zero records and
    reports 0 saved pairs.  Summary mode: [run_pipeline] still makes the
    reduction call, on the empty concatenation of partial summaries; if it
    answers, the answer is written as the summary, and if it raises, the
    run raises and nothing is written. *)
Theorem no_results_still_saved :
  (forall (files : list (string * string))
          (client : nat -> string -> result QA.completion)
          (sched : list nat) (chunks : list string),
     truthy (strip (QA.load_all files).2) = true ->
     chunk_text_with_overlap
       (S (length (split (QA.load_all files).2)))
       (QA.load_all files).2 300 50 = Some chunks ->
     (forall idx, idx ∈ sched -> QA.payload client chunks idx = []) ->
     (QA.process_chunks_parallel client sched chunks 5).2 = []
     /\ QA.main files client sched
        = Some ((QA.load_all files).1
                ++ (QA.process_chunks_parallel client sched chunks 5).1
                ++ [QA.FileWritten QA.OUTPUT_PATH [];
                    QA.SaySaved 0 QA.OUTPUT_PATH]))
  /\ (forall (text : string) (splitter : Z -> Z -> string -> list string)
             (llm : nat -> string -> string -> result string)
             (merge_llm : string -> string -> result string)
             (sched : list nat),
        let docs := splitter 1200 0 text in
        let fan := Summary.summarize_chunks_parallel llm sched docs in
        let evs := [Summary.SayLoaded Summary.INPUT_FILE;
                    Summary.SaySplit (length docs)]
                   ++ fan.1
                   ++ [Summary.SayMerging;
                       Summary.LlmInvoked Summary.SYSTEM_MERGE ""] in
        (forall idx, idx ∈ sched -> Summary.partial llm docs idx = None) ->
        fan.2 = []
        /\ Summary.run_pipeline (Some text) splitter llm merge_llm sched
           = match merge_llm Summary.SYSTEM_MERGE "" with
             | Raise e => (evs, Raise e)
             | Return final =>
                 (evs ++ [Summary.SayFinalCreated;
                          Summary.FileWritten Summary.OUTPUT_FILE final;
                          Summary.SaySummarySaved Summary.OUTPUT_FILE],
                  Return tt)
             end).
Proof.
  split.
  - intros files client sched chunks Ht Hc Hfail.
    assert ((QA.process_chunks_parallel client sched chunks 5).2 = [])
      as Hout.
    { by rewrite process_chunks_kept, concat_map_nil. }
    split; [done|].
    destruct (main_runs files client sched Ht) as (chunks' & Hc' & ->).
    rewrite Hc in Hc'. inversion Hc'; subst chunks'.
    by rewrite Hout.
  - intros text splitter llm merge_llm sched docs fan evs Hfail.
    assert (fan.2 = []) as Hout.
    { subst fan. unfold Summary.summarize_chunks_parallel.
      rewrite fold_collect_summaries. simpl. by apply omap_none. }
    split; [done|].
    rewrite run_pipeline_unfold. fold docs. fold fan. rewrite Hout.
    reflexivity.
Qed.

Lemma no_results_still_saved_witness :
  (QA.process_chunks_parallel
     (fun _ _ => Raise (ServiceError "down")) [0%nat] ["some text"] 5).2 = []
  /\ QA.main [("data/cv.txt", "some text")]
       (fun _ _ => Raise (ServiceError "down")) [0%nat]
     = Some ((QA.load_all [("data/cv.txt", "some text")]).1
             ++ (QA.process_chunks_parallel
                   (fun _ _ => Raise (ServiceError "down")) [0%nat]
                   ["some text"] 5).1
             ++ [QA.FileWritten QA.OUTPUT_PATH [];
                 QA.SaySaved 0 QA.OUTPUT_PATH]).
Proof.
  apply (proj1 no_results_still_saved
           [("data/cv.txt", "some text")]
           (fun _ _ => Raise (ServiceError "down")) [0%nat] ["some text"]).
  - reflexivity.
  - reflexivity.
  - intros idx Hidx. apply list_elem_of_singleton in Hidx as ->.
    reflexivity.
Defined.

(** C9 (what the code does).  In summary mode an input file that exists
    and is empty does not stop the run, where [main] stops on an empty
    text: whatever the splitter returns for the empty text, and whatever
    the service answers, the worker pool is opened and the reduction call
    is made; with a splitter that returns no document and a service that
    answers, the answer is written as the summary. *)
Theorem empty_input_file_still_summarized :
  (forall (splitter : Z -> Z -> string -> list string)
          (llm : nat -> string -> string -> result string)
          (merge_llm : string -> string -> result string),
     let docs := splitter 1200 0 "" in
     let run := Summary.run_pipeline (Some "") splitter llm merge_llm
                  (seq 0 (length docs)) in
     Summary.PoolOpened Summary.MAX_WORKERS (length docs) ∈ run.1
     /\ exists user, Summary.LlmInvoked Summary.SYSTEM_MERGE user ∈ run.1)
  /\ Summary.run_pipeline (Some "") (fun _ _ _ => [])
       (fun _ _ _ => Raise (ServiceError "down")) (fun _ _ => Return "S") []
     = ([Summary.SayLoaded Summary.INPUT_FILE; Summary.SaySplit 0;
         Summary.PoolOpened 5 0; Summary.SayMerging;
         Summary.LlmInvoked Summary.SYSTEM_MERGE "";
         Summary.SayFinalCreated;
         Summary.FileWritten Summary.OUTPUT_FILE "S";
         Summary.SaySummarySaved Summary.OUTPUT_FILE],
        Return tt).
Proof.
  split; [|vm_compute; reflexivity].
  intros splitter llm merge_llm docs run. subst run.
  rewrite run_pipeline_unfold. fold docs.
  unfold Summary.summarize_chunks_parallel.
  rewrite fold_collect_summaries. cbn [fst snd].
  set (user := join _ _).
  destruct (merge_llm Summary.SYSTEM_MERGE user); cbn [fst]; split;
    try exists user;
    repeat (rewrite elem_of_app || rewrite elem_of_cons); naive_solver.
Qed.

(** Segmenting a text that [strip] empties (the empty string, or white
    space only) returns the empty chunk list, for any sizes. *)
Lemma empty_text_no_chunks (text : string) (C O : Z) (fuel : nat) :
  strip text = "" ->
  chunk_text_with_overlap (S fuel) text C O = Some [].
Proof.
  intros Hs. apply strip_empty_split in Hs.
  unfold chunk_text_with_overlap. by rewrite Hs.
Qed.

(** ** Further properties of the segmenter *)

(** X1.  A text of at least one and at most [chunk_size - overlap] tokens
    gives a single chunk, the tokens of the text joined by single
    spaces. *)
Theorem short_text_single_chunk (text : string) (C O : Z) (fuel : nat) :
  0 <= O < C ->
  0 < len_words (split text) <= C - O ->
  (length (split text) < fuel)%nat ->
  chunk_text_with_overlap fuel text C O = Some [join " " (split text)].
Proof.
  intros HCO HT Hf. rewrite chunk_text_closed_form by lia.
  pose proof (ceil_div_bounds (len_words (split text)) (C - O) ltac:(lia)).
  assert (passes (len_words (split text)) (C - O) = 1%nat) as ->.
  { unfold passes. nia. }
  simpl. unfold window. do 3 f_equal.
  unfold len_words in *. rewrite py_slice_window by lia.
  simpl. apply take_ge. lia.
Qed.

Lemma short_text_single_chunk_witness :
  chunk_text_with_overlap 4 "  one two   three " 300 50
  = Some [join " " (split "  one two   three ")].
Proof.
  apply (short_text_single_chunk "  one two   three " 300 50 4).
  - lia.
  - vm_compute. split; congruence.
  - vm_compute. lia.
Defined.

(** X2.  With [0 <= overlap < chunk_size], the tokens of the chunk at
    position [i] of a returned list are the tokens of the text from offset
    [i * (chunk_size - overlap)] on, in order and without gap: no chunk
    holds a token that is not in the text, nor reorders tokens. *)
Theorem chunk_is_contiguous (fuel : nat) (text : string) (C O : Z)
    (cs : list string) (i : nat) (c : string) :
  0 <= O < C ->
  chunk_text_with_overlap fuel text C O = Some cs ->
  cs !! i = Some c ->
  exists pre post,
    split text = pre ++ split c ++ post
    /\ Z.of_nat (length pre) = Z.of_nat i * (C - O)
    /\ split c <> [].
Proof.
  intros HCO Hcs Hi.
  pose proof Hcs as Hcf. apply chunk_text_returns in Hcf; [|lia]. subst cs.
  apply closed_form_lookup in Hi as [Hi ->].
  apply (cond_running (split text) C O ltac:(lia)) in Hi.
  unfold loop_cond in Hi. apply Z.ltb_lt in Hi.
  rewrite iterate_start in Hi. simpl in Hi. unfold len_words in Hi.
  rewrite split_window by nia.
  set (x := Z.to_nat (Z.of_nat i * (C - O))).
  exists (take x (split text)), (drop (Z.to_nat C) (drop x (split text))).
  split; [|split].
  - by rewrite take_drop, take_drop.
  - rewrite length_take. subst x. nia.
  - intros Hnil. apply (f_equal length) in Hnil.
    rewrite length_take, length_drop in Hnil. simpl in Hnil. subst x. nia.
Qed.

Lemma chunk_is_contiguous_witness :
  exists pre post,
    split "a b c d e" = pre ++ split "c d e" ++ post
    /\ Z.of_nat (length pre) = Z.of_nat 1 * (3 - 1)
    /\ split "c d e" <> [].
Proof.
  apply (chunk_is_contiguous 6 "a b c d e" 3 1 ["a b c"; "c d e"; "e"] 1
           "c d e"); [lia|reflexivity|reflexivity].
Defined.

(** X3.  With [overlap = 0] the chunks partition the tokens: the token
    lists of the chunks, one after the other, are the token list of the
    text. *)
Theorem zero_overlap_partitions (fuel : nat) (text : string) (C : Z)
    (cs : list string) :
  0 < C ->
  chunk_text_with_overlap fuel text C 0 = Some cs ->
  concat (map split cs) = split text.
Proof.
  intros HC Hcs. apply chunk_text_returns in Hcs; [|lia]. subst cs.
  rewrite map_map.
  erewrite map_ext; [|intros i; rewrite split_window by nia; reflexivity].
  erewrite map_ext.
  2:{ intros i. rewrite Z.sub_0_r, Z2Nat.inj_mul, Nat2Z.id by lia.
      reflexivity. }
  rewrite concat_blocks. apply take_ge.
  pose proof (ceil_div_bounds (len_words (split text)) (C - 0) ltac:(lia)).
  pose proof (ceil_div_nonneg (len_words (split text)) (C - 0) ltac:(lia)
                (T_nonneg _)).
  unfold passes, len_words in *. nia.
Qed.

Lemma zero_overlap_partitions_witness :
  concat (map split ["a b"; "c d"; "e"]) = split "a b  c d e".
Proof.
  apply (zero_overlap_partitions 6 "a b  c d e" 2 ["a b"; "c d"; "e"]);
    [lia|reflexivity].
Defined.

(** ** Loading *)

Lemma split_from_nonempty (cur s : string) :
  cur <> "" -> split_from cur s <> [].
Proof.
  revert cur. induction s as [|c s IH]; intros cur Hcur; simpl.
  - by destruct cur.
  - destruct (isspace c).
    + by destruct cur.
    + apply IH. intros H. by apply app_eq_empty in H as [_ ?].
Qed.

(** A text has no token exactly when [strip] empties it. *)
Lemma split_nil_iff_strip (s : string) : split s = [] <-> strip s = "".
Proof.
  split; [|apply strip_empty_split].
  unfold strip, split. induction s as [|c s IH]; [done|]. simpl.
  destruct (isspace c); [done|].
  intros H. by apply split_from_nonempty in H.
Qed.

(** A space character ends the token being read. *)
Lemma split_from_sep (cur s t : string) (c : ascii) :
  isspace c = true ->
  split_from cur (s +:+ String c t) = split_from cur s ++ split_from "" t.
Proof.
  intros Hc. revert cur. induction s as [|d s IH]; intros cur.
  - rewrite app_empty_l. simpl. by rewrite Hc.
  - rewrite app_cons. simpl. destruct (isspace d); [|apply IH].
    by rewrite IH, app_assoc.
Qed.

Section Loading.
Import QA.

Lemma closed_text_empty : closed_text "".
Proof. intros x. by rewrite app_empty_l. Qed.

Lemma closed_text_step (acc t : string) :
  closed_text acc ->
  closed_text (acc +:+ t +:+ nl)
  /\ split (acc +:+ t +:+ nl) = split acc ++ split t.
Proof.
  intros Hacc.
  assert (forall x, split (t +:+ nl +:+ x) = split t ++ split x) as Ht.
  { intros x. unfold split, nl. rewrite app_cons, app_empty_l.
    by apply split_from_sep. }
  assert (split (acc +:+ t +:+ nl) = split acc ++ split t) as Heq.
  { rewrite Hacc. rewrite <- (app_empty_r nl), Ht. by rewrite app_nil_r. }
  split; [|done].
  intros x. rewrite Heq, !app_assoc_str, Hacc, Ht.
  by rewrite app_assoc.
Qed.

Lemma load_step_tokens (files : list (string * string))
    (evs : list event) (acc : string) :
  closed_text acc ->
  split (fold_left load_step files (evs, acc)).2
  = split acc ++ concat (map (fun f => split f.2) files).
Proof.
  revert evs acc. induction files as [|[path t] files IH]; intros evs acc Hacc.
  - simpl. by rewrite app_nil_r.
  - cbn [fold_left load_step map concat snd].
    destruct (truthy t) eqn:Ht.
    + destruct (closed_text_step acc t Hacc) as [Hc Heq].
      rewrite IH by done. by rewrite Heq, <- app_assoc.
    + destruct t; [|done]. rewrite IH by done. done.
Qed.

End Loading.

(** X4.  The text [main] segments has, as its tokens, the tokens of the
    loaded files one file after the other: the newline added after each
    file keeps the last word of a file apart from the first word of the
    next, and a file that loads to the empty text adds nothing. *)
Theorem load_all_tokens (files : list (string * string)) :
  split (QA.load_all files).2 = concat (map (fun f => split f.2) files).
Proof.
  unfold QA.load_all. by rewrite load_step_tokens by apply closed_text_empty.
Qed.

(** What [load_text_from_file] returns is stripped. *)
Lemma load_text_from_file_stripped (f : QA.file) :
  strip (QA.load_text_from_file f).2 = (QA.load_text_from_file f).2.
Proof.
  unfold QA.load_text_from_file.
  repeat (destruct (String.eqb _ _)); simpl; apply strip_idem.
Qed.

(** The loading loop with its calls to [load_text_from_file]: what it
    prints, and the text it accumulates. *)
Lemma load_file_step_fold (folder : list (string * QA.file))
    (evs evs' : list QA.event) (t : string) :
  fold_left QA.load_file_step folder (evs, t)
  = (evs ++ QA.loading_events folder,
     (fold_left QA.load_step (QA.load_folder folder) (evs', t)).2).
Proof.
  revert evs evs' t. induction folder as [|[path f] folder IH];
    intros evs evs' t.
  - simpl. by rewrite app_nil_r.
  - unfold QA.loading_events, QA.load_folder.
    cbn [fold_left map concat QA.load_file_step QA.load_step fst snd].
    destruct (QA.load_text_from_file f) as [skipped file_text]. cbn [fst snd].
    rewrite (IH _ (evs' ++ [QA.SayLoading path])).
    unfold QA.loading_events, QA.load_folder. f_equal.
    rewrite <- app_assoc. f_equal.
Qed.

Lemma main_folder_no_text (folder : list (string * QA.file))
    (client : nat -> string -> result QA.completion) (sched : list nat) :
  truthy (strip (QA.load_all (QA.load_folder folder)).2) = false ->
  QA.main_folder folder client sched
  = Some (QA.loading_events folder ++ [QA.SayNoText]).
Proof.
  intros Ht. unfold QA.main_folder.
  rewrite (load_file_step_fold folder [] [] "").
  fold (QA.load_all (QA.load_folder folder)). by rewrite Ht.
Qed.

Lemma main_folder_runs (folder : list (string * QA.file))
    (client : nat -> string -> result QA.completion) (sched : list nat) :
  truthy (strip (QA.load_all (QA.load_folder folder)).2) = true ->
  exists chunks,
    chunk_text_with_overlap
      (S (length (split (QA.load_all (QA.load_folder folder)).2)))
      (QA.load_all (QA.load_folder folder)).2 300 50 = Some chunks
    /\ let run := QA.process_chunks_parallel client sched chunks 5 in
       QA.main_folder folder client sched
       = Some (QA.loading_events folder ++ run.1
               ++ [QA.FileWritten QA.OUTPUT_PATH run.2;
                   QA.SaySaved (length run.2) QA.OUTPUT_PATH]).
Proof.
  intros Ht. unfold QA.main_folder.
  rewrite (load_file_step_fold folder [] [] "").
  fold (QA.load_all (QA.load_folder folder)). rewrite Ht. simpl negb.
  cbv iota. rewrite chunk_text_closed_form by lia.
  eexists. split; [done|].
  by destruct (QA.process_chunks_parallel _ _ _ _).
Qed.

(** [main]'s guard fails exactly when every file loads to the empty
    text. *)
Lemma guard_iff_all_empty (folder : list (string * QA.file)) :
  strip (QA.load_all (QA.load_folder folder)).2 = ""
  <-> Forall (fun pf => (QA.load_text_from_file pf.2).2 = "") folder.
Proof.
  rewrite <- split_nil_iff_strip, load_all_tokens.
  unfold QA.load_folder. rewrite map_map. cbn [snd].
  induction folder as [|pf folder IH]; [by split; [constructor|]|].
  cbn [map concat]. rewrite Forall_cons, <- IH.
  rewrite <- (load_text_from_file_stripped pf.2) at 2.
  rewrite <- split_nil_iff_strip. split.
  - intros H. by apply app_eq_nil in H.
  - by intros [-> ->].
Qed.

(** X5.  For a data folder whose files the readers can read, [main]
    stops at its guard exactly when every file loads to the empty text (a
    type that is not supported, or nothing but white space): it has then
    printed, for each file, that it loads it and, for a type it does not
    support, that it skips it, then that no text was found, and has done
    nothing else. *)
Theorem main_no_text_iff (folder : list (string * QA.file))
    (client : nat -> string -> result QA.completion) (sched : list nat) :
  QA.main_folder folder client sched
  = Some (QA.loading_events folder ++ [QA.SayNoText])
  <-> Forall (fun pf => (QA.load_text_from_file pf.2).2 = "") folder.
Proof.
  rewrite <- guard_iff_all_empty. split.
  - intros Hmain.
    destruct (truthy (strip (QA.load_all (QA.load_folder folder)).2)) eqn:Ht.
    + destruct (main_folder_runs folder client sched Ht)
        as (chunks & _ & Hrun).
      cbv zeta in Hrun. rewrite Hrun in Hmain. inversion Hmain as [Heq].
      apply app_inv_head in Heq.
      rewrite process_chunks_events in Heq. done.
    + by destruct (strip _).
  - intros Hs. apply main_folder_no_text. by rewrite Hs.
Qed.

(** A folder with a note of white space only and the output file of an
    earlier run, whose type is not supported. *)
Example main_folder_demo :
  QA.main_folder
    [("data/note.txt",
      {| QA.suffix := ".txt"; QA.read_text := "  ";
         QA.pdf_pages := []; QA.docx_paragraphs := [] |});
     ("data/qa_pairs.jsonl",
      {| QA.suffix := ".jsonl"; QA.read_text := "{}";
         QA.pdf_pages := []; QA.docx_paragraphs := [] |})]
    (fun _ _ => Raise (ServiceError "down")) []
  = Some [QA.SayLoading "data/note.txt";
          QA.SayLoading "data/qa_pairs.jsonl";
          QA.SaySkipping "data/qa_pairs.jsonl";
          QA.SayNoText].
Proof. reflexivity. Qed.

(** X6.  Whenever [main] gets past its guard the segmenter returns at
    least one chunk, and the run ends with one write of the output file. *)
Theorem main_segments_some_chunk (files : list (string * string))
    (client : nat -> string -> result QA.completion) (sched : list nat) :
  truthy (strip (QA.load_all files).2) = true ->
  exists c cs,
    chunk_text_with_overlap
      (S (length (split (QA.load_all files).2)))
      (QA.load_all files).2 300 50 = Some (c :: cs)
    /\ exists evs out,
         QA.main files client sched
         = Some (evs ++ [QA.FileWritten QA.OUTPUT_PATH out;
                         QA.SaySaved (length out) QA.OUTPUT_PATH]).
Proof.
  intros Ht.
  destruct (main_runs files client sched Ht) as (chunks & Hc & Hrun).
  destruct chunks as [|c cs].
  - exfalso. apply chunk_text_returns in Hc; [|lia].
    pose proof (ceil_div_bounds
                  (len_words (split (QA.load_all files).2)) (300 - 50)
                  ltac:(lia)) as Hb.
    symmetry in Hc. apply map_eq_nil in Hc.
    apply (f_equal length) in Hc. rewrite length_seq in Hc. simpl in Hc.
    assert (split (QA.load_all files).2 = []) as Hnil.
    { unfold passes, len_words in *.
      destruct (split (QA.load_all files).2); [done|]. simpl length in *.
      nia. }
    apply split_nil_iff_strip in Hnil. by rewrite Hnil in Ht.
  - exists c, cs. split; [done|]. rewrite Hrun.
    eexists (_ ++ _), _. by rewrite <- app_assoc.
Qed.

Lemma main_segments_some_chunk_witness :
  exists c cs,
    chunk_text_with_overlap 3 ("one two" +:+ QA.nl) 300 50 = Some (c :: cs).
Proof.
  destruct (main_segments_some_chunk [("data/cv.txt", "one two")]
              (fun _ _ => Raise (ServiceError "down")) [0%nat] eq_refl)
    as (c & cs & Hc & _).
  exists c, cs. exact Hc.
Defined.

(** ** Further properties of the parser *)

Section ParserMore.
Import QA.

Lemma split_on_nonempty (c : ascii) (s : string) : split_on c s <> [].
Proof.
  induction s as [|d s IH]; [done|]. simpl.
  destruct (Ascii.eqb d c); [done|]. by destruct (split_on c s).
Qed.

(** A line without newline in front of a text extends its first line. *)
Lemma split_on_line (l s : string) :
  single_line l = true ->
  split_on newline (l +:+ s)
  = match split_on newline s with
    | h :: t => (l +:+ h) :: t
    | [] => [l]
    end.
Proof.
  intros Hl. induction l as [|c l IH].
  - rewrite app_empty_l. destruct (split_on newline s) eqn:Hs; [|done].
    by apply split_on_nonempty in Hs.
  - simpl in Hl. apply andb_true_iff in Hl as [Hc Hl].
    rewrite app_cons. simpl. apply negb_true_iff in Hc. rewrite Hc.
    rewrite IH by done. by destruct (split_on newline s).
Qed.

Lemma split_on_single_line (l : string) :
  single_line l = true -> split_on newline l = [l].
Proof.
  intros Hl. rewrite <- (app_empty_r l) at 1.
  rewrite split_on_line by done. simpl. by rewrite app_empty_r.
Qed.

(** Joining single lines by newlines and splitting again gives the lines. *)
Lemma split_on_join (lines : list string) :
  lines <> [] -> Forall (fun l => single_line l = true) lines ->
  split_on newline (join nl lines) = lines.
Proof.
  intros Hne H. induction H as [|l lines Hl Hlines IH]; [done|].
  destruct lines as [|l' lines].
  - simpl. by apply split_on_single_line.
  - rewrite join_cons, split_on_line by done.
    unfold nl at 1. rewrite app_cons, app_empty_l. cbn [split_on].
    change (Ascii.eqb newline newline) with true. cbv iota.
    rewrite IH by done. by rewrite app_empty_r.
Qed.

Lemma single_line_app (s t : string) :
  single_line (s +:+ t) = single_line s && single_line t.
Proof.
  induction s as [|c s IH]; [done|].
  rewrite app_cons. simpl. rewrite IH. by rewrite andb_assoc.
Qed.

Lemma strip_leading_space (s : string) : strip (String " " s) = strip s.
Proof. reflexivity. Qed.

(** A well-formed pair of lines appends its record and leaves no
    question pending. *)
Lemma parse_pair (st : parser_state) (q a : string) :
  q <> "" -> strip q = q -> strip a = a ->
  parse_line (parse_line st ("Q: " +:+ q)) ("A: " +:+ a)
  = {| current_q := None; qa_list := qa_list st ++ [make_qa q a] |}.
Proof.
  intros Hq Hsq Hsa. unfold parse_line at 2.
  change (startswith ("Q: " +:+ q) "Q:") with true. cbv iota.
  unfold parse_line.
  change (startswith ("A: " +:+ a) "Q:") with false.
  change (startswith ("A: " +:+ a) "A:") with true. cbv iota.
  cbn [current_q qa_list].
  change (str_drop 2 ("Q: " +:+ q)) with (String " " q).
  change (str_drop 2 ("A: " +:+ a)) with (String " " a).
  rewrite !strip_leading_space, Hsq, Hsa.
  by destruct q.
Qed.

Lemma parse_lines_cons (st : parser_state) (l : string)
    (lines : list string) :
  parse_lines st (l :: lines) = parse_lines (parse_line st l) lines.
Proof. reflexivity. Qed.

Lemma format_lines_cons (q a : string) (pairs : list (string * string)) :
  format_lines ((q, a) :: pairs)
  = ("Q: " +:+ q) :: ("A: " +:+ a) :: format_lines pairs.
Proof. reflexivity. Qed.

Lemma parse_format_lines (st : parser_state) (pairs : list (string * string)) :
  Forall (fun p => p.1 <> "" /\ strip p.1 = p.1 /\ strip p.2 = p.2) pairs ->
  parse_lines st (format_lines pairs)
  = match pairs with
    | [] => st
    | _ => {| current_q := None;
              qa_list := qa_list st ++ map (fun p => make_qa p.1 p.2) pairs |}
    end.
Proof.
  intros H. revert st. induction H as [|[q a] pairs (Hq & Hsq & Hsa) _ IH];
    intros st; [done|].
  rewrite format_lines_cons, !parse_lines_cons.
  simpl in Hq, Hsq, Hsa. rewrite parse_pair, IH by done.
  destruct pairs; cbn [qa_list map fst snd]; [done|].
  by rewrite <- app_assoc.
Qed.

Lemma pending_count_le (st : parser_state) : (pending_count st <= 1)%nat.
Proof. unfold pending_count. destruct (pending _); lia. Qed.

Lemma parse_line_counts (st : parser_state) (l : string) :
  (length (qa_list (parse_line st l)) + pending_count (parse_line st l)
   <= length (qa_list st) + pending_count st
      + (if startswith l "Q:" then 1 else 0))%nat
  /\ (length (qa_list (parse_line st l))
      <= length (qa_list st) + (if startswith l "A:" then 1 else 0))%nat.
Proof.
  pose proof (pending_count_le (parse_line st l)) as Hle.
  unfold parse_line in *.
  destruct (startswith l "Q:") eqn:HQ.
  - cbn [qa_list] in *. split; [lia|]. destruct (startswith l "A:"); lia.
  - destruct (startswith l "A:") eqn:HA; [|lia].
    unfold pending_count in *.
    destruct (pending (current_q st)) as [q|] eqn:Hp.
    + cbn [qa_list current_q pending] in *. rewrite length_app. simpl. lia.
    + rewrite Hp. lia.
Qed.

(** Each record uses up one [Q:] line and one [A:] line. *)
Lemma parse_lines_counts (st : parser_state) (lines : list string) :
  (length (qa_list (parse_lines st lines))
   + pending_count (parse_lines st lines)
   <= length (qa_list st) + pending_count st
      + length (List.filter (fun l => startswith l "Q:") lines))%nat
  /\ (length (qa_list (parse_lines st lines))
      <= length (qa_list st)
         + length (List.filter (fun l => startswith l "A:") lines))%nat.
Proof.
  revert st. induction lines as [|l lines IH]; intros st; [simpl; lia|].
  rewrite parse_lines_cons. cbn [List.filter].
  destruct (IH (parse_line st l)) as [IHq IHa].
  destruct (parse_line_counts st l) as [Hq Ha].
  destruct (startswith l "Q:"), (startswith l "A:"); simpl length; lia.
Qed.

Lemma single_line_drop (n : nat) (s : string) :
  single_line s = true -> single_line (str_drop n s) = true.
Proof.
  revert s. induction n as [|n IH]; intros s Hs; [done|].
  destruct s as [|c s]; [done|]. simpl in *.
  apply andb_true_iff in Hs as [_ Hs]. by apply IH.
Qed.

Lemma single_line_lstrip (s : string) :
  single_line s = true -> single_line (lstrip s) = true.
Proof.
  induction s as [|c s IH]; [done|]. intros Hs. simpl.
  destruct (isspace c); [|done]. simpl in Hs.
  apply andb_true_iff in Hs as [_ Hs]. by apply IH.
Qed.

Lemma single_line_rstrip (s : string) :
  single_line s = true -> single_line (rstrip s) = true.
Proof.
  induction s as [|c s IH]; [done|]. intros Hs. simpl in *.
  apply andb_true_iff in Hs as [Hc Hs]. specialize (IH Hs).
  destruct (rstrip s).
  - destruct (isspace c); [done|]. simpl. by rewrite Hc.
  - simpl in *. by rewrite Hc, IH.
Qed.

Lemma single_line_strip (s : string) :
  single_line s = true -> single_line (strip s) = true.
Proof. intros Hs. by apply single_line_rstrip, single_line_lstrip. Qed.

Lemma split_on_single_lines (s : string) :
  Forall (fun l => single_line l = true) (split_on newline s).
Proof.
  induction s as [|c s IH]; [by repeat constructor|]. simpl.
  destruct (Ascii.eqb c newline) eqn:Hc; [by constructor|].
  destruct (split_on newline s) as [|h t] eqn:Hs;
    [by apply split_on_nonempty in Hs|].
  apply Forall_cons in IH as [Hh Ht]. constructor; [|done].
  simpl. by rewrite Hc, Hh.
Qed.

End ParserMore.

(** X7.  An answer written in the format the prompt asks for, a line
    [Q: q] followed by a line [A: a] for each pair, with every question
    and answer a single stripped line and every question non-empty, parses
    to exactly those pairs, in order. *)
Theorem parse_format_round_trip (pairs : list (string * string)) :
  Forall (fun p => p.1 <> "" /\ strip p.1 = p.1 /\ strip p.2 = p.2
                   /\ QA.single_line p.1 = true
                   /\ QA.single_line p.2 = true) pairs ->
  QA.parse_qa (QA.format_pairs pairs)
  = map (fun p => QA.make_qa p.1 p.2) pairs.
Proof.
  intros H. unfold QA.parse_qa, QA.format_pairs.
  destruct pairs as [|p pairs]; [done|].
  rewrite split_on_join.
  - rewrite parse_format_lines; [done|].
    eapply Forall_impl; [exact H|]. by intros ? (? & ? & ? & _).
  - done.
  - unfold QA.format_lines. apply Forall_concat, Forall_fmap.
    eapply Forall_impl; [exact H|]. intros [q a] (_ & _ & _ & Hq & Ha).
    simpl in *. by repeat constructor.
Qed.

Lemma parse_format_round_trip_witness :
  QA.parse_qa (QA.format_pairs [("Who?", "Saud."); ("What?", "")])
  = [QA.make_qa "Who?" "Saud."; QA.make_qa "What?" ""].
Proof.
  apply (parse_format_round_trip [("Who?", "Saud."); ("What?", "")]).
  repeat constructor; done.
Defined.

(** X8.  The parser returns at most as many records as the answer has
    [Q:] lines, and at most as many as it has [A:] lines. *)
Theorem parse_qa_count (content : string) :
  let lines := split_on newline content in
  (length (QA.parse_qa content)
   <= length (List.filter (fun l => startswith l "Q:") lines))%nat
  /\ (length (QA.parse_qa content)
      <= length (List.filter (fun l => startswith l "A:") lines))%nat.
Proof.
  intros lines. unfold QA.parse_qa. fold lines.
  destruct (parse_lines_counts QA.parser_init lines) as [HQ HA].
  simpl in *. split; lia.
Qed.

(** X9.  Every record the parser returns is the fixed three-message
    conversation (system, user, assistant) whose user and assistant
    contents are single lines without surrounding white space, the user
    content not empty. *)
Theorem parse_qa_record_shape (content : string) (r : QA.qa) :
  r ∈ QA.parse_qa content ->
  exists q a,
    QA.messages r
    = [ {| QA.role := "system"; QA.content := QA.SYSTEM_ANSWER |};
        {| QA.role := "user"; QA.content := q |};
        {| QA.role := "assistant"; QA.content := a |} ]
    /\ q <> "" /\ strip q = q /\ strip a = a
    /\ QA.single_line q = true /\ QA.single_line a = true.
Proof.
  intros Hr.
  apply (parser_inv_lines (split_on newline content)) in Hr
    as (i & j & lq & la & _ & Hi & Hj & _ & _ & -> & Hne & _).
  pose proof (split_on_single_lines content) as Hlines.
  rewrite Forall_lookup in Hlines.
  exists (strip (str_drop 2 lq)), (strip (str_drop 2 la)).
  split; [done|]. split; [done|].
  split; [apply strip_idem|]. split; [apply strip_idem|].
  split; by eapply single_line_strip, single_line_drop, Hlines.
Qed.

Lemma parse_qa_record_shape_witness :
  exists q a,
    QA.messages (QA.make_qa "Who?" "Saud.")
    = [ {| QA.role := "system"; QA.content := QA.SYSTEM_ANSWER |};
        {| QA.role := "user"; QA.content := q |};
        {| QA.role := "assistant"; QA.content := a |} ]
    /\ q <> "" /\ strip q = q /\ strip a = a
    /\ QA.single_line q = true /\ QA.single_line a = true.
Proof.
  apply (parse_qa_record_shape
           ("intro" +:+ QA.nl +:+ "Q:  Who? " +:+ QA.nl +:+ "A: Saud.")).
  vm_compute. by left.
Defined.

(** ** Further properties of the aggregation *)

Section AggregationMore.
Import QA.

Lemma kept_sublist (seen : gset string) (l : list qa) :
  sublist (kept seen l) l.
Proof.
  revert seen. induction l as [|r l IH]; intros seen; simpl.
  - constructor.
  - destruct (andb _ _); [apply sublist_skip|apply sublist_cons]; apply IH.
Qed.

(** The normalised questions kept: the non-empty ones of the list that
    were not seen before. *)
Lemma kept_keys (seen : gset string) (l : list qa) (u : string) :
  u ∈ user_msg <$> kept seen l
  <-> u <> "" /\ (u ∉ seen) /\ u ∈ user_msg <$> l.
Proof.
  split.
  - intros Hu. apply list_elem_of_fmap in Hu as (x & -> & Hx).
    apply kept_elem in Hx as (Hx & ? & ?).
    repeat split; [done..|]. by apply list_elem_of_fmap_2.
  - intros (Hne & Hns & Hu).
    apply list_elem_of_fmap in Hu as (x & -> & Hx).
    pose proof (kept_first seen l (user_msg x) Hne) as Hf.
    rewrite bool_decide_false in Hf by done.
    destruct (List.find _ l) as [r0|] eqn:Hfind.
    + apply find_some in Hfind as [_ Hkey].
      apply bool_decide_eq_true in Hkey. rewrite <- Hkey.
      apply list_elem_of_fmap_2.
      assert (r0 ∈ filter (fun y => user_msg y = user_msg x) (kept seen l))
        as Hin by (rewrite Hf; by left).
      by apply list_elem_of_filter in Hin as [_ ?].
    + apply list_elem_of_In in Hx. apply (find_none _ _ Hfind) in Hx.
      by rewrite bool_decide_true in Hx.
Qed.

(** A list without repeated, empty or already seen normalised question is
    kept whole. *)
Lemma kept_all (seen : gset string) (l : list qa) :
  NoDup (user_msg <$> l) ->
  Forall (fun r => user_msg r <> "" /\ (user_msg r ∉ seen)) l ->
  kept seen l = l.
Proof.
  revert seen. induction l as [|r l IH]; intros seen Hnd Hall; [done|].
  simpl in *. apply NoDup_cons in Hnd as [Hr Hnd].
  apply Forall_cons in Hall as [[Hne Hns] Hall].
  apply truthy_nonempty in Hne. rewrite Hne.
  rewrite bool_decide_false by done. simpl. f_equal.
  apply IH; [done|]. rewrite Forall_forall in Hall |- *.
  intros x Hx. destruct (Hall x Hx) as [? ?]. split; [done|].
  rewrite elem_of_union, elem_of_singleton. intros [?|Heq]; [done|].
  apply Hr. rewrite <- Heq. by apply list_elem_of_fmap_2.
Qed.

Lemma calls_of_app (l1 l2 : list event) :
  calls_of (l1 ++ l2) = calls_of l1 ++ calls_of l2.
Proof. apply omap_app. Qed.

Lemma calls_of_generate (call : string -> result completion)
    (chunk : string) :
  calls_of (generate_qa_from_chunk call chunk).1 = [build_prompt chunk 3].
Proof.
  unfold generate_qa_from_chunk.
  by destruct (call _) as [[[|[content|] ?]]|e].
Qed.

Lemma calls_of_chunk_events client (chunks : list string) (idx : nat) :
  calls_of (chunk_events client chunks idx)
  = match chunks !! idx with
    | Some chunk => [build_prompt chunk 3]
    | None => []
    end.
Proof.
  unfold chunk_events. destruct (chunks !! idx) as [chunk|]; [|done].
  pose proof (calls_of_generate (client idx) chunk) as H.
  destruct (generate_qa_from_chunk (client idx) chunk) as [wevs r].
  simpl in H. change (calls_of (?e :: ?l)) with (calls_of ([e] ++ l)).
  rewrite !calls_of_app, H. by destruct r.
Qed.

Lemma calls_of_concat_events client (chunks : list string)
    (sched : list nat) :
  calls_of (concat (map (chunk_events client chunks) sched))
  = omap (fun idx => (fun chunk => build_prompt chunk 3) <$> chunks !! idx)
         sched.
Proof.
  induction sched as [|idx sched IH]; [done|].
  cbn [map concat]. rewrite calls_of_app, calls_of_chunk_events, IH.
  rewrite omap_cons_eq. by destruct (chunks !! idx).
Qed.

Lemma calls_of_process client (sched : list nat) (chunks : list string)
    (w : Z) :
  calls_of (process_chunks_parallel client sched chunks w).1
  = omap (fun idx => (fun chunk => build_prompt chunk 3) <$> chunks !! idx)
         sched.
Proof.
  rewrite process_chunks_events.
  change (calls_of (?e :: ?l)) with (calls_of ([e] ++ l)).
  by rewrite calls_of_app, calls_of_concat_events.
Qed.

Lemma omap_ext_in {A B} (f g : A -> option B) (l : list A) :
  (forall x, x ∈ l -> f x = g x) -> omap f l = omap g l.
Proof.
  induction l as [|x l IH]; intros H; [done|].
  rewrite !omap_cons_eq, (H x) by left.
  rewrite IH; [done|]. intros y Hy. apply H. by right.
Qed.

(** Looking up every index in turn gives the list back. *)
Lemma omap_lookup_seq {A B} (f : A -> B) (l : list A) :
  omap (fun i => f <$> l !! i) (seq 0 (length l)) = map f l.
Proof.
  induction l as [|x l IH] using rev_ind; [done|].
  rewrite length_app, Nat.add_1_r, seq_S, omap_app, map_app.
  rewrite omap_cons_eq, Nat.add_0_l, lookup_app_r, Nat.sub_diag by lia.
  simpl. f_equal. rewrite <- IH. apply omap_ext_in.
  intros i Hi. apply elem_of_seq in Hi. by rewrite lookup_app_l by lia.
Qed.

End AggregationMore.

(** X10.  When [as_completed] yields every future once, whatever the
    order, the service is called exactly once per chunk, with the prompt
    built from that chunk: no chunk is skipped and none is retried, whether
    calls fail or not. *)
Theorem one_call_per_chunk (client : nat -> string -> result QA.completion)
    (sched : list nat) (chunks : list string) (w : Z) :
  sched ≡ₚ seq 0 (length chunks) ->
  QA.calls_of (QA.process_chunks_parallel client sched chunks w).1
  ≡ₚ map (fun chunk => QA.build_prompt chunk 3) chunks.
Proof.
  intros Hperm. rewrite calls_of_process, Hperm.
  by rewrite omap_lookup_seq.
Qed.

Lemma one_call_per_chunk_witness :
  QA.calls_of (QA.process_chunks_parallel
                 (fun _ _ => Raise (ServiceError "down")) [1; 0]%nat
                 ["c0"; "c1"] 5).1
  ≡ₚ map (fun chunk => QA.build_prompt chunk 3) ["c0"; "c1"].
Proof.
  apply (one_call_per_chunk (fun _ _ => Raise (ServiceError "down"))
           [1; 0]%nat ["c0"; "c1"] 5).
  apply perm_swap.
Defined.

(** X11.  The completion order decides which answer is kept for a
    question, not which questions are kept: two schedules that are
    permutations of each other give results with the same normalised
    questions, hence of the same length. *)
Theorem dedup_keys_order_independent
    (client : nat -> string -> result QA.completion)
    (sched sched' : list nat) (chunks : list string) (w : Z) :
  sched ≡ₚ sched' ->
  let out := (QA.process_chunks_parallel client sched chunks w).2 in
  let out' := (QA.process_chunks_parallel client sched' chunks w).2 in
  QA.user_msg <$> out ≡ₚ QA.user_msg <$> out'
  /\ length out = length out'.
Proof.
  intros Hperm out out'. subst out out'.
  assert (QA.user_msg <$> (QA.process_chunks_parallel client sched chunks w).2
          ≡ₚ QA.user_msg
             <$> (QA.process_chunks_parallel client sched' chunks w).2) as H.
  { rewrite !process_chunks_kept.
    apply NoDup_Permutation; [apply kept_NoDup..|].
    intros u. rewrite !kept_keys.
    assert (forall s s' : list nat, s ≡ₚ s' ->
              u ∈ QA.user_msg <$> concat (map (QA.payload client chunks) s) ->
              u ∈ QA.user_msg <$> concat (map (QA.payload client chunks) s'))
      as Hsub.
    { intros s s' Hs Hu. apply list_elem_of_fmap in Hu as (x & -> & Hx).
      apply list_elem_of_fmap_2.
      apply elem_of_concat_map in Hx as (idx & Hidx & Hx).
      apply elem_of_concat_map. exists idx. split; [|done].
      by rewrite <- Hs. }
    split; intros (? & ? & ?).
    - repeat split; [done..|]. by apply (Hsub sched sched').
    - repeat split; [done..|]. by apply (Hsub sched' sched). }
  split; [done|].
  apply Permutation_length in H. by rewrite !length_fmap in H.
Qed.

Lemma dedup_keys_order_independent_witness :
  let client (idx : nat) (_ : string) : result QA.completion :=
    match idx with
    | O => Return {| QA.choices :=
                       [Some ("Q: What is X?" +:+ QA.nl +:+ "A: first")] |}
    | _ => Return {| QA.choices :=
                       [Some ("Q:  what is x? " +:+ QA.nl +:+ "A: second")] |}
    end in
  length (QA.process_chunks_parallel client [0; 1]%nat ["c0"; "c1"] 5).2
  = length (QA.process_chunks_parallel client [1; 0]%nat ["c0"; "c1"] 5).2.
Proof.
  intros client.
  apply (dedup_keys_order_independent client [0; 1]%nat [1; 0]%nat
           ["c0"; "c1"] 5).
  apply perm_swap.
Defined.

(** X12.  The records of the result appear in the order in which the
    payloads completed: the result is a subsequence of the payloads'
    records in completion order. *)
Theorem result_follows_completion_order
    (client : nat -> string -> result QA.completion)
    (sched : list nat) (chunks : list string) (w : Z) :
  sublist (QA.process_chunks_parallel client sched chunks w).2
          (concat (map (QA.payload client chunks) sched)).
Proof. rewrite process_chunks_kept. apply kept_sublist. Qed.

(** X13.  Running the aggregation loop again over a result changes
    nothing: every record of a result is kept. *)
Theorem aggregation_idempotent
    (client : nat -> string -> result QA.completion)
    (sched : list nat) (chunks : list string) (w : Z) :
  let out := (QA.process_chunks_parallel client sched chunks w).2 in
  QA.all_qa (fold_left QA.add_qa out QA.agg_init) = out.
Proof.
  intros out. subst out. rewrite fold_add_qa, process_chunks_kept. simpl.
  apply kept_all; [apply kept_NoDup|].
  apply Forall_forall. intros r Hr. apply kept_elem in Hr as (_ & _ & Hne).
  split; [done|]. apply not_elem_of_empty.
Qed.

(** ** What the runs write *)

Section QAWrites.
Import QA.

Lemma writes_of_app (l1 l2 : list event) :
  writes_of (l1 ++ l2) = writes_of l1 ++ writes_of l2.
Proof. apply omap_app. Qed.

Lemma writes_of_generate (call : string -> result completion)
    (chunk : string) :
  writes_of (generate_qa_from_chunk call chunk).1 = [].
Proof.
  unfold generate_qa_from_chunk.
  by destruct (call _) as [[[|[content|] ?]]|e].
Qed.

Lemma writes_of_chunk_events client (chunks : list string) (idx : nat) :
  writes_of (chunk_events client chunks idx) = [].
Proof.
  unfold chunk_events. destruct (chunks !! idx) as [chunk|]; [|done].
  pose proof (writes_of_generate (client idx) chunk) as H.
  destruct (generate_qa_from_chunk (client idx) chunk) as [wevs r].
  simpl in H. change (writes_of (?e :: ?l)) with (writes_of ([e] ++ l)).
  rewrite !writes_of_app, H. by destruct r.
Qed.

Lemma writes_of_process client (sched : list nat) (chunks : list string)
    (w : Z) :
  writes_of (process_chunks_parallel client sched chunks w).1 = [].
Proof.
  rewrite process_chunks_events.
  change (writes_of (?e :: ?l)) with (writes_of ([e] ++ l)).
  rewrite writes_of_app. simpl.
  induction sched as [|idx sched IH]; [done|].
  cbn [map concat]. by rewrite writes_of_app, writes_of_chunk_events, IH.
Qed.

Lemma loading_is_silent (files : list (string * string)) :
  writes_of (map (fun f => SayLoading f.1) files) = []
  /\ calls_of (map (fun f => SayLoading f.1) files) = [].
Proof. induction files as [|f files [IH1 IH2]]; [done|]. by split. Qed.

End QAWrites.

Lemma loading_events_silent (folder : list (string * QA.file)) :
  QA.writes_of (QA.loading_events folder) = []
  /\ QA.calls_of (QA.loading_events folder) = [].
Proof.
  unfold QA.loading_events.
  induction folder as [|pf folder [IH1 IH2]]; [done|].
  cbn [map concat].
  change (?e :: ?l1 ++ ?l2) with ((e :: l1) ++ l2).
  rewrite writes_of_app, calls_of_app, IH1, IH2.
  by destruct (QA.load_text_from_file pf.2).1.
Qed.

(** X14.  Whenever [main] completes on a data folder: if every file
    loaded to the empty text, it has called no service and written nothing;
    otherwise it has written the output file exactly once, and no two of
    the records written have the same normalised question. *)
Theorem main_writes_once (folder : list (string * QA.file))
    (client : nat -> string -> result QA.completion) (sched : list nat)
    (evs : list QA.event) :
  QA.main_folder folder client sched = Some evs ->
  if truthy (strip (QA.load_all (QA.load_folder folder)).2)
  then exists out,
         QA.writes_of evs = [(QA.OUTPUT_PATH, out)]
         /\ NoDup (QA.user_msg <$> out)
  else QA.writes_of evs = [] /\ QA.calls_of evs = [].
Proof.
  intros Hmain.
  destruct (loading_events_silent folder) as [Hw Hc].
  destruct (truthy (strip (QA.load_all (QA.load_folder folder)).2)) eqn:Ht.
  - destruct (main_folder_runs folder client sched Ht)
      as (chunks & _ & Hrun).
    cbv zeta in Hrun. rewrite Hrun in Hmain. inversion Hmain; subst evs.
    exists (QA.process_chunks_parallel client sched chunks 5).2.
    rewrite !writes_of_app, writes_of_process, Hw. split; [done|].
    rewrite process_chunks_kept. apply kept_NoDup.
  - rewrite main_folder_no_text in Hmain by done.
    inversion Hmain; subst evs.
    by rewrite writes_of_app, calls_of_app, Hw, Hc.
Qed.

Lemma main_writes_once_witness :
  QA.writes_of [QA.SayLoading "data/x.md"; QA.SaySkipping "data/x.md";
                QA.SayNoText] = []
  /\ QA.calls_of [QA.SayLoading "data/x.md"; QA.SaySkipping "data/x.md";
                  QA.SayNoText] = [].
Proof.
  apply (main_writes_once
           [("data/x.md",
             {| QA.suffix := ".md"; QA.read_text := "text";
                QA.pdf_pages := []; QA.docx_paragraphs := [] |})]
           (fun _ _ => Raise (ServiceError "down")) []).
  reflexivity.
Defined.

Section SummaryWrites.
Import Summary.

Lemma omap_events_app {B} (f : event -> option B) (l1 l2 : list event) :
  omap f (l1 ++ l2) = omap f l1 ++ omap f l2.
Proof. apply omap_app. Qed.

Lemma writes_of_doc_events (llm : nat -> string -> string -> result string)
    (docs : list string) (sched : list nat) :
  writes_of (concat (map (doc_events llm docs) sched)) = [].
Proof.
  induction sched as [|idx sched IH]; [done|].
  cbn [map concat]. unfold writes_of in *. rewrite omap_events_app, IH.
  unfold doc_events, summarize_chunk.
  destruct (docs !! idx) as [doc|]; [|done].
  by destruct (llm idx SYSTEM_NOTES doc).
Qed.

End SummaryWrites.

(** X15.  [run_pipeline] writes the output file only once the reduction
    call has answered.  With a missing input file it raises
    [FileNotFoundError] before anything else; if the reduction call raises,
    the run raises that exception and nothing has been written; and
    whenever the run returns, the file was written exactly once, as the
    last step but the report of it, with the answer of the reduction
    call. *)
Theorem run_pipeline_writes_last (file : option string)
    (splitter : Z -> Z -> string -> list string)
    (llm : nat -> string -> string -> result string)
    (merge_llm : string -> string -> result string) (sched : list nat) :
  let run := Summary.run_pipeline file splitter llm merge_llm sched in
  let reduce text :=
    merge_llm Summary.SYSTEM_MERGE
      (join (String newline (String newline ""))
         (Summary.summarize_chunks_parallel llm sched
            (splitter 1200 0 text)).2) in
  (file = None -> run = ([], Raise FileNotFoundError))
  /\ (forall text e,
        file = Some text -> reduce text = Raise e ->
        run.2 = Raise e /\ Summary.writes_of run.1 = [])
  /\ (run.2 = Return tt ->
      exists text final evs,
        file = Some text /\ reduce text = Return final
        /\ Summary.writes_of run.1 = [(Summary.OUTPUT_FILE, final)]
        /\ run.1 = evs ++ [Summary.FileWritten Summary.OUTPUT_FILE final;
                           Summary.SaySummarySaved Summary.OUTPUT_FILE]).
Proof.
  intros run reduce. subst run reduce. cbv beta.
  destruct file as [text|].
  2:{ split; [done|]. split; [by intros|]. simpl. by intros. }
  split; [by intros|].
  rewrite run_pipeline_unfold.
  set (docs := splitter 1200 0 text).
  assert (Summary.writes_of (Summary.summarize_chunks_parallel llm sched docs).1
          = []) as Hfan.
  { unfold Summary.summarize_chunks_parallel.
    rewrite fold_collect_summaries. cbn [fst].
    change ([?e] ++ ?l) with (e :: l).
    change (Summary.writes_of (?e :: ?l))
      with (Summary.writes_of ([e] ++ l)).
    unfold Summary.writes_of. rewrite omap_events_app.
    fold (Summary.writes_of (concat (map (Summary.doc_events llm docs) sched))).
    by rewrite writes_of_doc_events. }
  destruct (merge_llm _ _) as [final|e] eqn:Hm; cbn [snd fst].
  - split.
    + intros text' e' Ht He. inversion Ht; subst text'. fold docs in He.
      congruence.
    + intros _. exists text, final. eexists (_ :: _ :: _).
      split; [done|]. split; [done|]. split.
      * unfold Summary.writes_of in *.
        rewrite !omap_events_app, Hfan. reflexivity.
      * rewrite cons_middle, app_assoc. reflexivity.
  - split; [|done].
    intros text' e' Ht He. inversion Ht; subst text'. fold docs in He.
    rewrite Hm in He. inversion He; subst e'. split; [done|].
    unfold Summary.writes_of in *.
    rewrite !omap_events_app, Hfan. reflexivity.
Qed.

Lemma run_pipeline_writes_last_witness :
  (Summary.run_pipeline (Some "one two") (fun _ _ t => split t)
     (fun _ _ doc => Return ("notes on " +:+ doc))
     (fun _ _ => Raise (ServiceError "quota")) [0; 1]%nat).2
  = Raise (ServiceError "quota")
  /\ Summary.writes_of
       (Summary.run_pipeline (Some "one two") (fun _ _ t => split t)
          (fun _ _ doc => Return ("notes on " +:+ doc))
          (fun _ _ => Raise (ServiceError "quota")) [0; 1]%nat).1 = [].
Proof.
  destruct (run_pipeline_writes_last (Some "one two") (fun _ _ t => split t)
              (fun _ _ doc => Return ("notes on " +:+ doc))
              (fun _ _ => Raise (ServiceError "quota")) [0; 1]%nat)
    as (_ & Hraise & _).
  apply (Hraise "one two" (ServiceError "quota")); reflexivity.
Defined.

Section SummaryAccounting.
Import Summary.
Variable llm : nat -> string -> string -> result string.
Variable docs : list string.

Lemma invocations_of_doc_events (sched : list nat) :
  invocations_of (concat (map (doc_events llm docs) sched))
  = omap (fun idx => (fun doc => (SYSTEM_NOTES, doc)) <$> docs !! idx) sched.
Proof.
  induction sched as [|idx sched IH]; [done|].
  cbn [map concat]. unfold invocations_of in *.
  rewrite omap_events_app, IH, omap_cons_eq.
  unfold doc_events, summarize_chunk.
  destruct (docs !! idx) as [doc|]; [|done].
  by destruct (llm idx SYSTEM_NOTES doc).
Qed.

(** A document whose future completes gives a summary or an error report,
    and only one of the two. *)
Lemma summary_or_error (sched : list nat) :
  Forall (fun idx => (idx < length docs)%nat) sched ->
  (length (omap (partial llm docs) sched)
   + length (errors_of (concat (map (doc_events llm docs) sched))))%nat
  = length sched.
Proof.
  induction 1 as [|idx sched Hidx _ IH]; [done|].
  cbn [map concat]. unfold errors_of in *.
  rewrite omap_events_app, length_app, omap_cons_eq.
  apply lookup_lt_is_Some_2 in Hidx as [doc Hdoc].
  unfold partial at 1, doc_events at 1, summarize_chunk. rewrite Hdoc.
  destruct (llm idx SYSTEM_NOTES doc); simpl in *; lia.
Qed.

End SummaryAccounting.

(** X16.  When [as_completed] yields every future once,
    [summarize_chunks_parallel] sends every document to the model exactly
    once, and every document ends either as a summary in the result or as
    an error report: the summaries and the reports together are as many as
    the documents. *)
Theorem summaries_and_errors_account
    (llm : nat -> string -> string -> result string)
    (sched : list nat) (docs : list string) :
  sched ≡ₚ seq 0 (length docs) ->
  let run := Summary.summarize_chunks_parallel llm sched docs in
  Summary.invocations_of run.1
  ≡ₚ map (fun doc => (Summary.SYSTEM_NOTES, doc)) docs
  /\ (length run.2 + length (Summary.errors_of run.1))%nat = length docs.
Proof.
  intros Hperm run. subst run. unfold Summary.summarize_chunks_parallel.
  rewrite fold_collect_summaries. cbn [fst snd app].
  change (Summary.invocations_of (?e :: ?l))
    with (Summary.invocations_of l).
  change (Summary.errors_of (?e :: ?l)) with (Summary.errors_of l).
  split.
  - rewrite invocations_of_doc_events, Hperm. by rewrite omap_lookup_seq.
  - rewrite summary_or_error.
    + apply Permutation_length in Hperm. by rewrite Hperm, length_seq.
    + apply Forall_forall. intros idx Hidx. rewrite Hperm in Hidx.
      apply elem_of_seq in Hidx. lia.
Qed.

Lemma summaries_and_errors_account_witness :
  let llm (idx : nat) (_ doc : string) : result string :=
    if (idx =? 0)%nat then Raise (ServiceError "quota")
    else Return ("notes on " +:+ doc) in
  let run := Summary.summarize_chunks_parallel llm [1; 0]%nat ["a"; "b"] in
  (length run.2 + length (Summary.errors_of run.1))%nat = 2%nat.
Proof.
  intros llm.
  apply (summaries_and_errors_account llm [1; 0]%nat ["a"; "b"]).
  apply perm_swap.
Defined.

(** ** The tokens of a loaded file *)

Lemma split_from_lstrip (s : string) : split (lstrip s) = split s.
Proof.
  unfold split. induction s as [|c s IH]; [done|]. simpl.
  destruct (isspace c) eqn:Hc; [done|]. simpl. by rewrite Hc.
Qed.

Lemma rstrip_empty_split_from (cur s : string) :
  rstrip s = "" -> split_from cur s = flush cur.
Proof.
  revert cur. induction s as [|c s IH]; intros cur; [done|]. simpl.
  destruct (rstrip s) eqn:Hr; [|done].
  destruct (isspace c); [|done]. intros _.
  rewrite IH by done. simpl. by rewrite app_nil_r.
Qed.

Lemma split_from_rstrip (cur s : string) :
  split_from cur (rstrip s) = split_from cur s.
Proof.
  revert cur. induction s as [|c s IH]; intros cur; [done|]. simpl.
  destruct (rstrip s) as [|d r] eqn:Hr.
  - destruct (isspace c) eqn:Hc.
    + rewrite (rstrip_empty_split_from "" s) by done.
      simpl. by rewrite app_nil_r.
    + simpl. rewrite Hc. by rewrite (rstrip_empty_split_from _ s).
  - simpl. destruct (isspace c); by rewrite <- IH.
Qed.

(** [strip] removes no token. *)
Lemma split_strip (s : string) : split (strip s) = split s.
Proof.
  unfold strip. rewrite <- (split_from_lstrip s). unfold split.
  apply split_from_rstrip.
Qed.

(** The tokens of texts joined by single spaces are the tokens of the
    texts. *)
Lemma split_join_any (l : list string) :
  split (join " " l) = concat (map split l).
Proof.
  induction l as [|w l IH]; [done|]. destruct l as [|w' l].
  - simpl. by rewrite app_nil_r.
  - rewrite join_cons. unfold split at 1.
    rewrite app_cons, app_empty_l, split_from_sep by done.
    fold (split w). fold (split (join " " (w' :: l))).
    by rewrite IH.
Qed.

(** X17.  Loading loses no word and joins no two words: the tokens of the
    text [load_text_from_file] returns are those of the file content for a
    text file, those of the pages in order for a PDF (a page without text
    adding none), those of the paragraphs in order for a DOCX, whatever the
    case of the extension; a file of another type gives no token. *)
Theorem load_text_from_file_tokens (f : QA.file) :
  split (QA.load_text_from_file f).2
  = if String.eqb (lower (QA.suffix f)) ".txt" then split (QA.read_text f)
    else if String.eqb (lower (QA.suffix f)) ".pdf" then
      concat (map (fun page => match page with
                               | Some t => split t
                               | None => []
                               end) (QA.pdf_pages f))
    else if String.eqb (lower (QA.suffix f)) ".docx" then
      concat (map split (QA.docx_paragraphs f))
    else [].
Proof.
  unfold QA.load_text_from_file.
  destruct (String.eqb _ ".txt"); [apply split_strip|].
  destruct (String.eqb _ ".pdf").
  - cbn [snd]. rewrite split_strip, split_join_any, map_map.
    f_equal. apply map_ext. intros [t|]; [|done]. by destruct t.
  - destruct (String.eqb _ ".docx"); [|done].
    cbn [snd]. by rewrite split_strip, split_join_any.
Qed.

(** A scanned PDF in upper-case extension, a page without text between two
    pages of text. *)
Example load_pdf_demo :
  QA.load_text_from_file
    {| QA.suffix := ".PDF"; QA.read_text := "";
       QA.pdf_pages := [Some " Page one "; None; Some "page two"];
       QA.docx_paragraphs := [] |}
  = (false, "Page one   page two").
Proof. reflexivity. Qed.

Example split_demo :
  split ("  the quick" +:+ String newline "" +:+ " brown   fox ")
  = ["the"; "quick"; "brown"; "fox"].
Proof. reflexivity. Qed.

Example chunk_demo :
  chunk_text_with_overlap 10 "a b c d" 5 2 = Some ["a b c d"; "d"].
Proof. reflexivity. Qed.
